(** * Orchestration core of the finance agent ([finance_agent/agent.py])

    A shallow embedding of the scheduler [topo_sort_subquestions], the
    placeholder resolver [resolve_placeholders], the argument normaliser
    [_map_aliases_to_signature], the tool selector [FinancialAgent._search_tools],
    the per-node loop of [FinancialAgent.answer] and its bounded history.

    Modelling conventions.
    - Python values are the inductive [pyval]; a Python [dict] is an
      association list [pydict] (insertion order matters for
      [next(iter(args.values()))] and for [list(answered_by_id.values())]).
    - Python [int] is [Z]. Strings are Rocq [string]s (bytes); the
      character classes [\s], [str.strip], [str.split] and [str.lower] are
      modelled on the ASCII range.
    - Exceptions are the constructors of [exc]; fallible code returns
      [result]. The run of [answer] threads its state through the small
      state-and-exception monad [M]. *)

From Stdlib Require Import List String Ascii ZArith Lia Bool Permutation.
From Stdlib Require Import Relations DecimalString ListDec.
Import ListNotations.

Set Warnings "-register-all".

Open Scope string_scope.
Open Scope list_scope.

(** ** Python values *)

Inductive pyval : Type :=
| PNone
| PBool (b : bool)
| PInt (z : Z)
| PStr (s : string)
| PList (xs : list pyval)
| PDict (kvs : list (string * pyval)).

Definition pydict := list (string * pyval).

(** Python truthiness ([bool(x)]). *)
Definition truthy (v : pyval) : bool :=
  match v with
  | PNone => false
  | PBool b => b
  | PInt z => negb (Z.eqb z 0)
  | PStr s => negb (String.eqb s EmptyString)
  | PList xs => match xs with [] => false | _ => true end
  | PDict kvs => match kvs with [] => false | _ => true end
  end.

(** [x or y] *)
Definition py_or (x y : pyval) : pyval := if truthy x then x else y.

(** [d.get(k)]: [None] when the key is absent. *)
Fixpoint dict_get (d : pydict) (k : string) : pyval :=
  match d with
  | [] => PNone
  | (k', v) :: r => if String.eqb k' k then v else dict_get r k
  end.

Fixpoint dict_mem (d : pydict) (k : string) : bool :=
  match d with
  | [] => false
  | (k', _) :: r => String.eqb k' k || dict_mem r k
  end.

(** [d[k] = v]: an existing key keeps its position, a new key goes last. *)
Fixpoint dict_set (d : pydict) (k : string) (v : pyval) : pydict :=
  match d with
  | [] => [(k, v)]
  | (k', v') :: r =>
      if String.eqb k' k then (k', v) :: r else (k', v') :: dict_set r k v
  end.

(** Integer-keyed dicts ([answered_by_id]). *)
Fixpoint zdict_get {A} (d : list (Z * A)) (k : Z) : option A :=
  match d with
  | [] => None
  | (k', v) :: r => if Z.eqb k' k then Some v else zdict_get r k
  end.

Fixpoint zdict_set {A} (d : list (Z * A)) (k : Z) (v : A) : list (Z * A) :=
  match d with
  | [] => [(k, v)]
  | (k', v') :: r =>
      if Z.eqb k' k then (k', v) :: r else (k', v') :: zdict_set r k v
  end.

(** Python exceptions raised by the modelled code. *)
Inductive exc : Type :=
| ValueError (msg : string)
| IndexError (msg : string)
| TypeError (msg : string)
| AttributeError (msg : string)
| KeyError (msg : string)
| StopIteration.

Inductive result (A : Type) : Type :=
| Ok (a : A)
| Err (e : exc).
Arguments Ok {A} a.
Arguments Err {A} e.

Definition rbind {A B} (r : result A) (k : A -> result B) : result B :=
  match r with Ok a => k a | Err e => Err e end.

(** ** Strings *)

Definition str_of_Z (z : Z) : string := NilZero.string_of_int (Z.to_int z).

Definition char_code (c : ascii) : nat := nat_of_ascii c.

(** [str.isspace] on one character (ASCII range: \t \n \v \f \r, the
    separators \x1c-\x1f and the space). *)
Definition is_space (c : ascii) : bool :=
  let n := char_code c in
  ((9 <=? n) && (n <=? 13))%nat || ((28 <=? n) && (n <=? 32))%nat.

Definition is_digit (c : ascii) : bool :=
  let n := char_code c in ((48 <=? n) && (n <=? 57))%nat.

Definition is_upper (c : ascii) : bool :=
  let n := char_code c in ((65 <=? n) && (n <=? 90))%nat.

(** [str.lower] on ASCII letters. *)
Definition lower_char (c : ascii) : ascii :=
  if is_upper c then ascii_of_nat (char_code c + 32) else c.

Fixpoint py_lower (s : string) : string :=
  match s with
  | EmptyString => EmptyString
  | String c r => String (lower_char c) (py_lower r)
  end.

Fixpoint lstrip (s : string) : string :=
  match s with
  | String c r => if is_space c then lstrip r else s
  | EmptyString => EmptyString
  end.

Definition rev_string (s : string) : string :=
  string_of_list_ascii (rev (list_ascii_of_string s)).

(** [str.strip()] *)
Definition py_strip (s : string) : string :=
  rev_string (lstrip (rev_string (lstrip s))).

(** [str.split()] (no separator): maximal runs of non-space characters. *)
Fixpoint split_ws_aux (s : string) (cur : string) : list string :=
  match s with
  | EmptyString => if String.eqb cur EmptyString then [] else [cur]
  | String c r =>
      if is_space c
      then (if String.eqb cur EmptyString then [] else [cur]) ++ split_ws_aux r EmptyString
      else split_ws_aux r (cur ++ String c EmptyString)
  end.

Definition split_ws (s : string) : list string := split_ws_aux s EmptyString.

(** [str.split(sep)] for a one-character separator. *)
Fixpoint split_char_aux (sep : ascii) (s : string) (cur : string) : list string :=
  match s with
  | EmptyString => [cur]
  | String c r =>
      if Ascii.eqb c sep then cur :: split_char_aux sep r EmptyString
      else split_char_aux sep r (cur ++ String c EmptyString)
  end.

Definition split_char (sep : ascii) (s : string) : list string :=
  split_char_aux sep s EmptyString.

Fixpoint has_char (c : ascii) (s : string) : bool :=
  match s with
  | EmptyString => false
  | String c' r => Ascii.eqb c' c || has_char c r
  end.

(** [needle in haystack] for strings. *)
Fixpoint str_contains (needle hay : string) : bool :=
  String.prefix needle hay ||
  match hay with
  | EmptyString => false
  | String _ r => str_contains needle r
  end.

(** [list[-1]]: [IndexError] on the empty list. *)
Definition last_elem {A} (xs : list A) : result A :=
  match rev xs with
  | x :: _ => Ok x
  | [] => Err (IndexError "list index out of range")
  end.

(** [list[0]]: [IndexError] on the empty list. *)
Definition first_elem {A} (xs : list A) : result A :=
  match xs with
  | x :: _ => Ok x
  | [] => Err (IndexError "list index out of range")
  end.

(** ** Dependency scheduler: [topo_sort_subquestions] *)

Record subquestion : Type := mk_subquestion {
  sq_id : Z;
  question : string;
  depends_on : list Z
}.

Definition upd {B} (f : Z -> B) (k : Z) (v : B) : Z -> B :=
  fun x => if Z.eqb x k then v else f x.

Definition memZ (x : Z) (l : list Z) : bool := existsb (Z.eqb x) l.

(** [id_map = {sq["id"]: sq for sq in subquestions}]: a later node with
    the same id overrides an earlier one. *)
Definition id_map (l : list subquestion) (i : Z) : option subquestion :=
  fold_left (fun acc sq => if Z.eqb (sq_id sq) i then Some sq else acc) l None.

(** The keys of [indeg], in dict order: ids by first occurrence. *)
Fixpoint dedup_ids_aux (seen : list Z) (l : list Z) : list Z :=
  match l with
  | [] => []
  | x :: r => if memZ x seen then dedup_ids_aux seen r
              else x :: dedup_ids_aux (seen ++ [x]) r
  end.

Definition indeg_keys (l : list subquestion) : list Z :=
  dedup_ids_aux [] (map sq_id l).

Definition invalid_dependency_msg (dep sid : Z) : string :=
  "Invalid dependency: " ++ str_of_Z dep ++ " referenced by " ++ str_of_Z sid.

Definition cycle_msg : string := "Cycle detected or missing nodes in dependencies".

(** The inner loop [for dep in sq.get("depends_on", []) or []]. *)
Fixpoint add_edges (ids : list Z) (sid : Z) (deps : list Z)
    (g : Z -> list Z) (indeg : Z -> Z) : result ((Z -> list Z) * (Z -> Z)) :=
  match deps with
  | [] => Ok (g, indeg)
  | dep :: ds =>
      if negb (memZ dep ids) then Err (ValueError (invalid_dependency_msg dep sid))
      else add_edges ids sid ds (upd g dep (g dep ++ [sid]))
                     (upd indeg sid (indeg sid + 1)%Z)
  end.

(** The outer loop [for sq in subquestions]. *)
Fixpoint build_graph (ids : list Z) (sqs : list subquestion)
    (g : Z -> list Z) (indeg : Z -> Z) : result ((Z -> list Z) * (Z -> Z)) :=
  match sqs with
  | [] => Ok (g, indeg)
  | sq :: r =>
      rbind (add_edges ids (sq_id sq) (depends_on sq) g indeg)
            (fun gi => build_graph ids r (fst gi) (snd gi))
  end.

(** [for nei in g[nid]: indeg[nei] -= 1; if indeg[nei] == 0: q.append(nei)] *)
Fixpoint relax (neis : list Z) (indeg : Z -> Z) (q : list Z) : (Z -> Z) * list Z :=
  match neis with
  | [] => (indeg, q)
  | nei :: r =>
      let indeg' := upd indeg nei (indeg nei - 1)%Z in
      relax r indeg' (if Z.eqb (indeg' nei) 0 then q ++ [nei] else q)
  end.

(** [while q: nid = q.popleft(); result.append(id_map[nid]); ...].
    Every id enters the queue at most once (its in-degree only decreases,
    and it is enqueued when it reaches 0), so the Python loop makes at most
    [len(subquestions)] rounds; [topo_sort_subquestions] gives it one more
    round of fuel, and the fuel branch is never reached. *)
Fixpoint kahn (fuel : nat) (idm : Z -> option subquestion) (g : Z -> list Z)
    (q : list Z) (indeg : Z -> Z) (res : list subquestion) : result (list subquestion) :=
  match fuel with
  | O => Err (ValueError cycle_msg)
  | S f =>
      match q with
      | [] => Ok res
      | nid :: q' =>
          match idm nid with
          | None => Err (KeyError (str_of_Z nid))
          | Some sq =>
              let '(indeg', q'') := relax (g nid) indeg q' in
              kahn f idm g q'' indeg' (res ++ [sq])
          end
      end
  end.

Definition topo_sort_subquestions (l : list subquestion) : result (list subquestion) :=
  let ids := map sq_id l in
  rbind (build_graph ids l (fun _ => []) (fun _ => 0%Z))
    (fun gi =>
       let '(g, indeg) := gi in
       let q := filter (fun nid => Z.eqb (indeg nid) 0) (indeg_keys l) in
       rbind (kahn (S (List.length l)) (id_map l) g q indeg [])
         (fun res =>
            if Nat.eqb (List.length res) (List.length l) then Ok res
            else Err (ValueError cycle_msg))).

(** The dependency graph: [d] is a dependency of the node with id [v]. *)
Definition dep_edge (l : list subquestion) (d v : Z) : Prop :=
  exists sq, In sq l /\ sq_id sq = v /\ In d (depends_on sq).

(** ** Python [str()] and [repr()] *)

Definition hex_digit (n : nat) : ascii :=
  match nth_error (list_ascii_of_string "0123456789abcdef") n with
  | Some c => c
  | None => "0"%char
  end.

Definition str1 (c : ascii) : string := String c EmptyString.

(** The double-quote character. *)
Definition dq : ascii := ascii_of_nat 34.

(** The body of [repr(s)] with quote character [q]. *)
Fixpoint repr_body (q : ascii) (s : string) : string :=
  match s with
  | EmptyString => EmptyString
  | String c r =>
      let n := char_code c in
      let e :=
        if Ascii.eqb c "\"%char then "\\"
        else if Ascii.eqb c q then ("\" ++ str1 q)%string
        else if Nat.eqb n 9 then "\t"
        else if Nat.eqb n 10 then "\n"
        else if Nat.eqb n 13 then "\r"
        else if (n <? 32)%nat || Nat.eqb n 127
             then ("\x" ++ str1 (hex_digit (n / 16)) ++ str1 (hex_digit (n mod 16)))%string
        else str1 c in
      (e ++ repr_body q r)%string
  end.

(** [repr(s)] for a string: single quotes unless the text has a single
    quote and no double quote. *)
Definition repr_string (s : string) : string :=
  let q := if has_char "'"%char s && negb (has_char dq s) then dq else "'"%char in
  (str1 q ++ repr_body q s ++ str1 q)%string.

Fixpoint py_repr (v : pyval) : string :=
  match v with
  | PNone => "None"
  | PBool true => "True"
  | PBool false => "False"
  | PInt z => str_of_Z z
  | PStr s => repr_string s
  | PList xs =>
      ("[" ++ String.concat ", "
        ((fix go (xs : list pyval) : list string :=
            match xs with [] => [] | x :: r => py_repr x :: go r end) xs) ++ "]")%string
  | PDict kvs =>
      ("{" ++ String.concat ", "
        ((fix go (kvs : list (string * pyval)) : list string :=
            match kvs with
            | [] => []
            | (k, x) :: r => (repr_string k ++ ": " ++ py_repr x)%string :: go r
            end) kvs) ++ "}")%string
  end.

(** [str(v)] *)
Definition py_str (v : pyval) : string :=
  match v with PStr s => s | _ => py_repr v end.

(** ** Placeholder resolution: [resolve_placeholders] *)

(** Longest prefix of [s] whose characters satisfy [p], and the rest. *)
Fixpoint span (p : ascii -> bool) (s : string) : string * string :=
  match s with
  | String c r => if p c then let (a, b) := span p r in (String c a, b) else (EmptyString, s)
  | EmptyString => (EmptyString, EmptyString)
  end.

Definition is_key_char (c : ascii) : bool :=
  is_upper c || is_digit c || Ascii.eqb c "_"%char.

(** One attempt of [PLACEHOLDER_PATTERN = \{\{\s*([A-Z0-9_]+)\s*\}\}] at
    the start of [s]: the matched text, group 1 and the rest. The classes
    [\s], [[A-Z0-9_]] and the braces are disjoint, so the greedy match is
    the only one and no backtracking is needed. *)
Definition match_placeholder (s : string) : option (string * string * string) :=
  match s with
  | String "{" (String "{" s1) =>
      let (ws1, s2) := span is_space s1 in
      let (key, s3) := span is_key_char s2 in
      if String.eqb key EmptyString then None else
      let (ws2, s4) := span is_space s3 in
      match s4 with
      | String "}" (String "}" s5) => Some (("{{" ++ ws1 ++ key ++ ws2 ++ "}}")%string, key, s5)
      | _ => None
      end
  | _ => None
  end.

(** The text as [PLACEHOLDER_PATTERN.sub] / [finditer] see it: literal
    characters and matched tokens, left to right, non-overlapping. *)
Inductive segment : Type :=
| Lit (c : ascii)
| Tok (raw : string) (key : string).

(** Each round consumes at least one character, so [String.length s]
    rounds suffice. *)
Fixpoint scan (fuel : nat) (s : string) : list segment :=
  match fuel with
  | O => map Lit (list_ascii_of_string s)
  | S f =>
      match s with
      | EmptyString => []
      | String c r =>
          match match_placeholder s with
          | Some (raw, key, rest) => Tok raw key :: scan f rest
          | None => Lit c :: scan f r
          end
      end
  end.

Definition segments (s : string) : list segment := scan (String.length s) s.

(** [extract_placeholders] *)
Definition extract_placeholders (s : string) : list string :=
  flat_map (fun sg => match sg with Tok _ k => [k] | Lit _ => [] end) (segments s).

(** ["_FROM_Q"] followed by one or more digits up to the end. *)
Definition from_q_tail (s : string) : option string :=
  if String.prefix "_FROM_Q" s then
    let ds := substring 7 (String.length s - 7) s in
    if negb (String.eqb ds EmptyString) && forallb is_digit (list_ascii_of_string ds)
    then Some ds else None
  else None.

(** [re.match(r"(.+)_FROM_Q(\d+)$", key)]: the greedy [(.+)] tries the
    longest prefix first, down to one character. *)
Fixpoint search_from_q (key : string) (i : nat) : option (string * string) :=
  match i with
  | O => None
  | S j =>
      match from_q_tail (substring i (String.length key - i) key) with
      | Some ds => Some (substring 0 i key, ds)
      | None => search_from_q key j
      end
  end.

Definition match_from_q (key : string) : option (string * string) :=
  search_from_q key (String.length key - 1).

(** [int(digits)] *)
Definition py_int_of_digits (ds : string) : Z :=
  fold_left (fun acc c => (acc * 10 + Z.of_nat (char_code c - 48))%Z)
    (list_ascii_of_string ds) 0%Z.

(** An answer record ([answered_by_id] values are dicts). *)
Abbreviation record := pydict (only parsing).

(** The value lookup of [repl] for an existing record [ans]:
    [extracted_data], then a dict [answer], then the colon/whitespace
    heuristic on a string [answer]. *)
Definition extract_value (ans : record) (field_name : string) : result pyval :=
  let ed := py_or (dict_get ans "extracted_data") (PDict []) in
  let value :=
    match ed with
    | PDict d => py_or (dict_get d (py_lower field_name)) (dict_get d field_name)
    | _ => PNone
    end in
  let a := dict_get ans "answer" in
  let value :=
    match value, a with
    | PNone, PDict ad =>
        let v := py_or (dict_get ad (py_lower field_name)) (dict_get ad field_name) in
        if truthy v then v else value
    | _, _ => value
    end in
  match value, a with
  | PNone, PStr s =>
      let txt := py_strip s in
      if has_char ":"%char txt then
        rbind (last_elem (split_char ":"%char txt)) (fun part =>
        rbind (first_elem (split_ws (py_strip part))) (fun w => Ok (PStr w)))
      else Ok (match split_ws txt with w :: _ => PStr w | [] => PNone end)
  | _, _ => Ok value
  end.

(** [repl] on one token: [Some] replacement, or [None] when the token is
    missing (left in place and its key appended to [missing]). *)
Definition resolve_token (answered : list (Z * record)) (key : string) : result (option string) :=
  match match_from_q key with
  | None => Ok None
  | Some (field_name, ds) =>
      match zdict_get answered (py_int_of_digits ds) with
      | None => Ok None
      | Some ans =>
          if negb (truthy (PDict ans)) then Ok None
          else rbind (extract_value ans field_name) (fun v =>
                 match v with PNone => Ok None | _ => Ok (Some (py_str v)) end)
      end
  end.

Fixpoint resolve_segments (answered : list (Z * record)) (segs : list segment)
    : result (string * list string) :=
  match segs with
  | [] => Ok (EmptyString, [])
  | Lit c :: r =>
      rbind (resolve_segments answered r) (fun tm => Ok (String c (fst tm), snd tm))
  | Tok raw key :: r =>
      rbind (resolve_token answered key) (fun o =>
      rbind (resolve_segments answered r) (fun tm =>
        match o with
        | Some v => Ok ((v ++ fst tm)%string, snd tm)
        | None => Ok ((raw ++ fst tm)%string, key :: snd tm)
        end))
  end.

Definition resolve_placeholders (question_text : string) (answered : list (Z * record))
    : result (string * list string) :=
  resolve_segments answered (segments question_text).

(** ** Argument normalisation: [_map_aliases_to_signature] *)

(** [inspect.Parameter] kinds. *)
Inductive param_kind : Type :=
| POSITIONAL_ONLY
| POSITIONAL_OR_KEYWORD
| VAR_POSITIONAL
| KEYWORD_ONLY
| VAR_KEYWORD.

(** A Python function object: its identity ([id(func)], what [==] and
    [in] compare for functions), [__name__] and its signature. *)
Record py_func : Type := mk_func {
  fn_id : nat;
  fn_name : string;
  fn_params : list (string * param_kind)
}.

Definition mem_str (x : string) (l : list string) : bool := existsb (String.eqb x) l.

(** [param_names]: the parameters that can be passed by keyword. *)
Definition param_names (f : py_func) : list string :=
  map fst (filter (fun p => match snd p with
                            | POSITIONAL_OR_KEYWORD | KEYWORD_ONLY => true
                            | _ => false
                            end) (fn_params f)).

Definition alias_map : list (string * string) :=
  [("ticker_symbol", "ticker"); ("stock_ticker", "ticker"); ("stock_symbol", "ticker");
   ("symbol", "ticker"); ("ticker", "ticker");
   ("company_name", "company_name"); ("company", "company_name"); ("name", "company_name");
   ("country", "country"); ("country_code", "country_code"); ("country_name", "country");
   ("indicator", "indicator"); ("metric", "indicator");
   ("query", "query"); ("q", "query"); ("start_date", "start_date"); ("end_date", "end_date");
   ("date", "date"); ("period", "period"); ("exchange", "exchange");
   ("from_currency", "from_currency"); ("to_currency", "to_currency"); ("amount", "amount")].

(** [alias_map.get(k)] *)
Fixpoint str_lookup (m : list (string * string)) (k : string) : option string :=
  match m with
  | [] => None
  | (k', v) :: r => if String.eqb k' k then Some v else str_lookup r k
  end.

(** [for p in param_names: if lower == p.lower(): ...; break] *)
Definition find_param_ci (params : list string) (lower : string) : option string :=
  find (fun p => String.eqb lower (py_lower p)) params.

(** [for alias_k, target in alias_map.items(): if alias_k.lower() == lower
    and target in param_names: ...; break] *)
Definition find_alias_ci (params : list string) (lower : string) : option string :=
  option_map snd (find (fun at_ => String.eqb (py_lower (fst at_)) lower && mem_str (snd at_) params)
                       alias_map).

(** One round of the second loop, for the argument [(k, v)]. *)
Definition alias_step (params : list string) (mapped : pydict) (kv : string * pyval) : pydict :=
  let (k, v) := kv in
  if dict_mem mapped k then mapped else
  let lower := py_lower k in
  let direct := match str_lookup alias_map lower with
                | Some t => if mem_str t params then Some t else None
                | None => None
                end in
  match direct with
  | Some t => dict_set mapped t v
  | None =>
      match find_param_ci params lower with
      | Some p => dict_set mapped p v
      | None => match find_alias_ci params lower with
                | Some t => dict_set mapped t v
                | None => mapped
                end
      end
  end.

(** The two loops: direct matches first, then aliases. *)
Definition map_core (args : pydict) (params : list string) : pydict :=
  let mapped := fold_left (fun m kv => if mem_str (fst kv) params then dict_set m (fst kv) (snd kv) else m)
                  args [] in
  fold_left (alias_step params) args mapped.

(** [_map_aliases_to_signature]. The final [next(iter(args.values()))]
    raises [StopIteration] when [args] is empty. *)
Definition map_aliases_to_signature (args : pydict) (func : py_func) : result pydict :=
  let params := param_names func in
  let mapped := map_core args params in
  match mapped, params with
  | [], [p0] =>
      match args with
      | (_, v) :: _ => Ok [(p0, v)]
      | [] => Err StopIteration
      end
  | _, _ => Ok mapped
  end.

(** The parameter that the second loop of [_map_aliases_to_signature]
    binds an argument with key [k] to, when [k] is not yet in [mapped]:
    the alias table's target if it is a parameter, else the first
    parameter equal to [k] up to case, else the first alias entry equal to
    [k] up to case whose target is a parameter. *)
Definition alias_target (params : list string) (k : string) : option string :=
  let lower := py_lower k in
  match str_lookup alias_map lower with
  | Some t => if mem_str t params then Some t
              else match find_param_ci params lower with
                   | Some p => Some p
                   | None => find_alias_ci params lower
                   end
  | None => match find_param_ci params lower with
            | Some p => Some p
            | None => find_alias_ci params lower
            end
  end.

(** ** Tool selection: [FinancialAgent._search_tools] *)

(** [ToolMeta] (the fields read by the agent). *)
Record tool_meta : Type := mk_meta {
  tm_name : string;
  tm_func : py_func
}.

(** [==] on function objects is identity. *)
Definition func_eqb (f g : py_func) : bool := Nat.eqb (fn_id f) (fn_id g).

(** The keyword rules of [_search_tools], in evaluation order: the words
    tested with [word in q] and the registry name of the tool. *)
Definition keyword_rules : list (list string * string) :=
  [(["mã cổ phiếu"; "ticker"; "symbol"; "mã chứng khoán"], "get_stock_symbol");
   (["ngành"; "sector"; "industry"; "lĩnh vực"; "thuộc ngành"], "get_sector_mapping");
   (["lạm phát"; "inflation"; "cpi"; "gdp"; "thất nghiệp"; "unemployment";
     "lãi suất"; "interest rate"; "vĩ mô"; "macro"; "kinh tế vĩ mô"], "get_macro_data");
   (["sàn"; "exchange"; "hose"; "hnx"; "upcom"], "get_exchange_info");
   (["tỷ giá"; "exchange rate"; "usd"; "vnd"; "currency"; "đô la"; "đồng"], "get_currency_rate");
   (["doanh thu"; "revenue"; "lợi nhuận"; "profit"; "earnings"; "income statement";
     "kết quả kinh doanh"; "ebitda"; "net income"], "get_income_statement");
   (["vốn chủ"; "equity"; "tài sản"; "assets"; "nợ"; "debt"; "liabilities";
     "bảng cân đối"; "balance sheet"; "shareholders equity"; "total assets"], "get_balance_sheet");
   (["dòng tiền"; "cash flow"; "operating cash"; "free cash flow"; "fcf";
     "investing cash"; "financing cash"], "analyze_cashflow");
   (["roe"; "roa"; "pe"; "p/e"; "pb"; "p/b"; "eps"; "tỷ số"; "chỉ số tài chính";
     "tỷ lệ"; "margin"; "biên lợi nhuận"], "calculate_ratios");
   (["định giá"; "valuation"; "fair value"; "giá trị hợp lý"; "dcf"; "ddm"; "peg"], "estimate_fair_value");
   (["rsi"; "macd"; "ma"; "moving average"; "bollinger"; "technical";
     "chỉ báo kỹ thuật"; "đường trung bình"], "get_technical_indicators");
   (["biểu đồ"; "chart"; "graph"; "vẽ"; "draw"; "plot"; "visualize";
     "biến động giá"; "price movement"; "price chart"; "lịch sử giá"], "generate_stock_price_chart");
   (["giá"; "price"; "stock price"; "giá cổ phiếu"; "thị giá"], "get_stock_price");
   (["thông tin cơ bản"; "fundamental"; "profile"], "get_fundamentals");
   (["risk"; "volatility"; "beta"; "sharpe"; "sortino"; "drawdown"; "var";
     "rủi ro"; "biến động"], "get_risk_metrics")].

(** [if f not in tools: tools.insert(0, f)] *)
Definition insert_front (f : py_func) (tools : list py_func) : list py_func :=
  if existsb (func_eqb f) tools then tools else f :: tools.

(** ** The agent's collaborators *)

(** One entry of [conversation_history]. *)
Record exchange : Type := mk_exchange {
  ex_user_query : string;
  ex_assistant_response : string;
  ex_timestamp : string;
  ex_answered_subquestions : list record
}.

(** What [self.gemini.generate] is asked. The prompts are built from these
    fields (and the last entries of the history); [now] is the
    [datetime.utcnow()] of the run. *)
Inductive oracle_req : Type :=
| ReqSub (hist : list exchange) (now query : string) (sid : Z) (text : string)
    (deps : list record) (tools : option (list py_func))
| ReqFollow (hist : list exchange) (now query : string) (sid : Z) (text : string)
    (deps : list record) (tool_name : string) (extracted : pydict)
| ReqFinal (hist : list exchange) (query : string) (records : list record).

(** The dict returned by [generate] (the fields read by the agent). The
    wrapper catches its own errors, so a call always returns. *)
Record gen_out : Type := mk_gen_out {
  out_text : option string;
  out_function_call : pyval
}.

(** A tool call returns a value or raises an [Exception] (message [str(e)]). *)
Inductive tool_ret : Type :=
| TReturn (v : pyval)
| TRaise (msg : string).

(** The environment of a run: the tool registry ([registry.get]), the vector
    index ([None] when it could not be built; otherwise the [tool_name]
    metadata of the [k=4] hits of [similarity_search], in rank order), the
    language model, the tools' behaviour and [json.loads] ([None] when it
    raises). *)
Record env : Type := mk_env {
  registry_get : string -> option tool_meta;
  tool_index : option (string -> list (option string));
  oracle : oracle_req -> gen_out;
  tool_impl : py_func -> pydict -> tool_ret;
  json_loads : string -> option pyval
}.

(** The semantic hits of [_search_tools], in rank order. *)
Definition semantic_hits (E : env) (text : string) : list py_func :=
  match tool_index E with
  | None => []
  | Some search =>
      flat_map (fun name => match name with
                            | Some n => match registry_get E n with
                                        | Some m => [tm_func m]
                                        | None => []
                                        end
                            | None => []
                            end) (search text)
  end.

(** One keyword rule, on the lowered text [q]. *)
Definition apply_rule (E : env) (q : string) (tools : list py_func)
    (rule : list string * string) : list py_func :=
  if existsb (fun w => str_contains w q) (fst rule) then
    match registry_get E (snd rule) with
    | Some m => insert_front (tm_func m) tools
    | None => tools
    end
  else tools.

(** [_search_tools]. [str.lower] is modelled on ASCII letters. *)
Definition search_tools (E : env) (resolved_subquestion : string) : list py_func :=
  fold_left (apply_rule E (py_lower resolved_subquestion)) keyword_rules
    (semantic_hits E resolved_subquestion).

(** ** Parsing a function call *)

Definition is_alnum (c : ascii) : bool :=
  let n := char_code c in
  is_digit c || is_upper c || ((97 <=? n) && (n <=? 122))%nat.

Definition newline : ascii := ascii_of_nat 10.

(** [re.sub(r"^```[a-zA-Z0-9]*\n?", "", s)] *)
Definition strip_fence_open (s : string) : string :=
  if String.prefix "```" s then
    let r := snd (span is_alnum (substring 3 (String.length s - 3) s)) in
    match r with
    | String c r' => if Ascii.eqb c newline then r' else r
    | EmptyString => r
    end
  else s.

(** [re.sub(r"```$", "", s)]: [$] also matches before a final newline. *)
Definition strip_fence_close (s : string) : string :=
  let n := String.length s in
  if (3 <=? n)%nat && String.eqb (substring (n - 3) 3 s) "```" then substring 0 (n - 3) s
  else if (4 <=? n)%nat && String.eqb (substring (n - 4) 4 s) ("```" ++ str1 newline)%string
  then (substring 0 (n - 4) s ++ str1 newline)%string
  else s.

(** [FinancialAgent._clean_json_str] on a string. *)
Definition clean_json_str (raw : string) : string :=
  let cleaned := py_strip raw in
  let cleaned := if String.prefix "```" cleaned
                 then strip_fence_close (strip_fence_open cleaned) else cleaned in
  py_strip cleaned.

(** [re.split(r"[,;\n]", s)] *)
Fixpoint split_seps_aux (s cur : string) : list string :=
  match s with
  | EmptyString => [cur]
  | String c r =>
      if Ascii.eqb c ","%char || Ascii.eqb c ";"%char || Ascii.eqb c newline
      then cur :: split_seps_aux r EmptyString
      else split_seps_aux r (cur ++ str1 c)
  end.

(** [p.split("=", 1)] on a part holding ["="]. *)
Fixpoint split_once (c : ascii) (s : string) : string * string :=
  match s with
  | EmptyString => (EmptyString, EmptyString)
  | String c' r => if Ascii.eqb c' c then (EmptyString, r)
                   else let (a, b) := split_once c r in (String c' a, b)
  end.

(** [_try_parse_arguments] on a string. *)
Definition try_parse_arguments (E : env) (arg_blob : string) : pydict :=
  if String.eqb arg_blob EmptyString then [] else
  let s := py_strip arg_blob in
  let s := if String.prefix "```" s then py_strip (strip_fence_close (strip_fence_open s)) else s in
  match json_loads E s with
  | Some (PDict d) => d
  | Some _ => []
  | None =>
      fold_left (fun out p =>
                   if has_char "="%char p then
                     let (k, v) := split_once "="%char p in
                     dict_set out (py_strip k) (PStr (py_strip v))
                   else out) (split_seps_aux s EmptyString) []
  end.

(** [dict(x)] for a value that is not a string. Pairs are two-item lists
    with a string first item or two-character strings; other items raise. *)
Definition py_dict_of (x : pyval) : result pydict :=
  match x with
  | PDict d => Ok d
  | PList xs =>
      fold_left (fun acc item =>
                   rbind acc (fun d =>
                     match item with
                     | PList [PStr k; v] => Ok (dict_set d k v)
                     | PStr (String a (String b EmptyString)) => Ok (dict_set d (str1 a) (PStr (str1 b)))
                     | _ => Err (TypeError "cannot convert dictionary update sequence element")
                     end)) xs (Ok [])
  | _ => Err (TypeError "object is not iterable")
  end.

(** [fc.get(...)]: [fc] must be a dict. *)
Definition as_dict (x : pyval) : result pydict :=
  match x with
  | PDict d => Ok d
  | _ => Err (AttributeError "object has no attribute 'get'")
  end.

(** [self.registry.get(fname) if fname else None] *)
Definition lookup_meta (E : env) (fname : pyval) : result (option tool_meta) :=
  if negb (truthy fname) then Ok None else
  match fname with
  | PStr s => Ok (registry_get E s)
  | PList _ | PDict _ => Err (TypeError "unhashable type")
  | _ => Ok None
  end.

Definition opt_text (t : option string) : pyval :=
  match t with Some s => PStr s | None => PNone end.

(** [x or y] on the [text] of a reply. *)
Definition text_or (t : option string) (dflt : string) : string :=
  match t with
  | Some s => if String.eqb s EmptyString then dflt else s
  | None => dflt
  end.

(** The [function_call] of the reply, or one parsed from its text. *)
Definition fc_of_reply (E : env) (out : gen_out) : pyval :=
  let fc := out_function_call out in
  if negb (truthy fc) && truthy (opt_text (out_text out)) then
    let cleaned := clean_json_str (text_or (out_text out) EmptyString) in
    match json_loads E cleaned with
    | Some (PDict d) => if dict_mem d "function_call" then dict_get d "function_call" else fc
    | Some _ => fc
    | None =>
        match json_loads E cleaned with
        | Some (PDict d) => if dict_mem d "name" && dict_mem d "arguments" then PDict d else fc
        | _ => fc
        end
    end
  else fc.

(** What the reply to the tool-enabled prompt decides. *)
Inductive call_plan : Type :=
| NoCall (raw_text : option string)
| Call (func : py_func) (name : string) (args : pydict).

(** From the reply to the call to execute ([tools] is non-empty; its head
    is [tools[0]]). *)
Definition plan_call (E : env) (out : gen_out) (tool0 : py_func) : result call_plan :=
  let fc := fc_of_reply E out in
  if negb (truthy fc) then Ok (NoCall (out_text out)) else
  rbind (as_dict fc) (fun fcd =>
  let fname := dict_get fcd "name" in
  let fargs_raw := py_or (dict_get fcd "arguments") (PDict []) in
  rbind (match fargs_raw with
         | PStr s => Ok (try_parse_arguments E s)
         | _ => py_dict_of fargs_raw
         end) (fun fargs =>
  rbind (lookup_meta E fname) (fun meta =>
  let chosen_func := match meta with Some m => tm_func m | None => tool0 end in
  let chosen_name := match meta with Some m => tm_name m | None => fn_name tool0 end in
  let mapped_args := match map_aliases_to_signature fargs chosen_func with
                     | Ok m => m
                     | Err _ => fargs
                     end in
  Ok (Call chosen_func chosen_name mapped_args)))).

(** ** The records of [answer] *)

Definition mk_record (sid : Z) (answer : pyval) (used_tools : list string)
    (extracted_data : pydict) : record :=
  [("id", PInt sid); ("answer", answer); ("used_tools", PList (map PStr used_tools));
   ("extracted_data", PDict extracted_data)].

Definition skip_record (sid : Z) (missing : list string) : record :=
  mk_record sid (PStr ("SKIP: missing placeholders " ++ py_repr (PList (map PStr missing)))%string)
    [] [].

Definition error_record (sid : Z) (chosen_name msg : string) : record :=
  mk_record sid (PStr ("ERROR executing tool " ++ chosen_name ++ ": " ++ msg)%string)
    [chosen_name] [].

(** [extracted = result if isinstance(result, dict) else {"result": result}] *)
Definition wrap_result (v : pyval) : pydict :=
  match v with PDict d => d | _ => [("result", v)] end.

(** [conversation_history.append(e)], then keep the last 10. *)
Definition record_exchange (hist : list exchange) (e : exchange) : list exchange :=
  let h := hist ++ [e] in
  if (10 <? List.length h)%nat then skipn (List.length h - 10) h else h.

(** ** The run: [FinancialAgent.answer] *)

(** The agent's [conversation_history], the run's [answered_by_id] and the
    tool calls made so far (function and keyword arguments). *)
Record agent_state : Type := mk_state {
  history : list exchange;
  answered : list (Z * record);
  calls : list (py_func * pydict)
}.

(** State and exceptions: a raised exception stops the run in the state it
    had reached. *)
Definition M (A : Type) : Type := agent_state -> result A * agent_state.

Definition ret {A} (a : A) : M A := fun s => (Ok a, s).

Definition bind {A B} (m : M A) (k : A -> M B) : M B :=
  fun s => match m s with
           | (Ok a, s') => k a s'
           | (Err e, s') => (Err e, s')
           end.

Notation "x <- m ;; k" := (bind m (fun x => k)) (at level 61, m at next level, right associativity).

Definition lift {A} (r : result A) : M A := fun s => (r, s).

Definition get_state : M agent_state := fun s => (Ok s, s).

Definition set_answered (a : list (Z * record)) : M unit :=
  fun s => (Ok tt, mk_state (history s) a (calls s)).

(** [answered_by_id[sq_id] = ans_obj] *)
Definition put_record (sid : Z) (rec : record) : M unit :=
  fun s => (Ok tt, mk_state (history s) (zdict_set (answered s) sid rec) (calls s)).

(** [self._call_callable(func, args)]: the call is recorded. *)
Definition call_tool (E : env) (f : py_func) (args : pydict) : M tool_ret :=
  fun s => (Ok (tool_impl E f args), mk_state (history s) (answered s) (calls s ++ [(f, args)])).

Definition set_history (h : list exchange) : M unit :=
  fun s => (Ok tt, mk_state h (answered s) (calls s)).

(** The [try] block around the tool call ([tool_callback] unset). *)
Definition run_tool (E : env) (hist : list exchange) (now query : string) (sid : Z)
    (resolved : string) (deps : list record) (f : py_func) (name : string) (args : pydict) : M unit :=
  r <- call_tool E f args ;;
  match r with
  | TRaise msg => put_record sid (error_record sid name msg)
  | TReturn v =>
      let extracted := wrap_result v in
      let out2 := oracle E (ReqFollow hist now query sid resolved deps name extracted) in
      let final_text := text_or (out_text out2) (py_str (PDict extracted)) in
      put_record sid (mk_record sid (PStr final_text) [name] extracted)
  end.

(** [deps = [answered_by_id[d] for d in (sq.get("depends_on") or []) if d in answered_by_id]] *)
Definition node_deps (answered_by_id : list (Z * record)) (sq : subquestion) : list record :=
  flat_map (fun d => match zdict_get answered_by_id d with
                     | Some r => [r]
                     | None => []
                     end) (depends_on sq).

(** One round of [for sq in ordered]. *)
Definition process_node (E : env) (now query : string) (sq : subquestion) : M unit :=
  st <- get_state ;;
  let hist := history st in
  let answered_by_id := answered st in
  let sid := sq_id sq in
  let deps := node_deps answered_by_id sq in
  rm <- lift (resolve_placeholders (question sq) answered_by_id) ;;
  let '(resolved, missing) := rm in
  match missing with
  | _ :: _ => put_record sid (skip_record sid missing)
  | [] =>
      let tools := search_tools E resolved in
      match tools with
      | [] =>
          let out := oracle E (ReqSub hist now query sid resolved deps None) in
          put_record sid (mk_record sid (PStr (text_or (out_text out) EmptyString)) [] [])
      | tool0 :: _ =>
          let out := oracle E (ReqSub hist now query sid resolved deps (Some tools)) in
          plan <- lift (plan_call E out tool0) ;;
          match plan with
          | NoCall raw_text => put_record sid (mk_record sid (opt_text raw_text) [] [])
          | Call f name args => run_tool E hist now query sid resolved deps f name args
          end
      end
  end.

Fixpoint process_all (E : env) (now query : string) (ordered : list subquestion) : M unit :=
  match ordered with
  | [] => ret tt
  | sq :: r => _ <- process_node E now query sq ;; process_all E now query r
  end.

(** The result dict of [answer]. *)
Record answer_out : Type := mk_answer_out {
  report : string;
  answered_subquestions : list record;
  subquestions : list subquestion
}.

(** The final aggregation and the history update. *)
Definition finish (E : env) (now query : string) (subs : list subquestion) : M answer_out :=
  st <- get_state ;;
  let recs := map snd (answered st) in
  let final_out := oracle E (ReqFinal (history st) query recs) in
  let final_text := text_or (out_text final_out) "No final text" in
  _ <- set_history (record_exchange (history st) (mk_exchange query final_text now recs)) ;;
  ret (mk_answer_out final_text recs subs).

(** [answer], from the sub-questions [subs] that
    [generate_subquestions_from_query] produced. *)
Definition answer (E : env) (now query : string) (subs : list subquestion) : M answer_out :=
  ordered <- lift (topo_sort_subquestions subs) ;;
  _ <- set_answered [] ;;
  _ <- process_all E now query ordered ;;
  finish E now query subs.

(** [clear_conversation_history] *)
Definition clear_conversation_history : M unit := set_history [].

(** A session: the calls made on one agent. *)
Inductive agent_op : Type :=
| OpAnswer (now query : string) (subs : list subquestion)
| OpClear.

Definition run_op (E : env) (st : agent_state) (op : agent_op) : agent_state :=
  match op with
  | OpAnswer now query subs => snd (answer E now query subs st)
  | OpClear => snd (clear_conversation_history st)
  end.

(** A fresh agent. *)
Definition init_state : agent_state := mk_state [] [] [].

Definition run_session (E : env) (ops : list agent_op) : agent_state :=
  fold_left (run_op E) ops init_state.

(** ** A sample environment

    One registered tool, [get_stock_price], whose calls fail; no vector
    index; the model always asks for [get_stock_price] when offered tools
    and answers ["ok"] otherwise. *)
Definition price_tool : py_func :=
  mk_func 1 "get_stock_price" [("ticker", POSITIONAL_OR_KEYWORD)].

Definition sample_env : env :=
  mk_env
    (fun n => if String.eqb n "get_stock_price" then Some (mk_meta n price_tool) else None)
    None
    (fun r => match r with
              | ReqSub _ _ _ _ _ _ (Some _) =>
                  mk_gen_out None (PDict [("name", PStr "get_stock_price");
                                          ("arguments", PDict [("ticker_symbol", PStr "FPT")])])
              | _ => mk_gen_out (Some "ok") PNone
              end)
    (fun _ _ => TRaise "connection refused")
    (fun _ => None).

(** Proof vocabulary for the scheduler. *)

(** The dependency list of the node with id [v] (its first occurrence). *)
Definition deps_of (l : list subquestion) (v : Z) : list Z :=
  match find (fun sq => Z.eqb (sq_id sq) v) l with
  | Some sq => depends_on sq
  | None => []
  end.

(** What [g[u]] holds once built: for every node, in input order, its id
    once per occurrence of [u] in its [depends_on]. *)
Definition succ_list (l : list subquestion) (u : Z) : list Z :=
  flat_map (fun sq => map (fun _ => sq_id sq) (filter (fun d => Z.eqb d u) (depends_on sq))) l.

(** What [indeg[v]] holds once built. *)
Definition in_count (l : list subquestion) (v : Z) : nat :=
  fold_right (fun sq acc => (if Z.eqb (sq_id sq) v then List.length (depends_on sq) else 0) + acc)%nat 0%nat l.

(** Dependencies not yet emitted. *)
Definition cnt_notin (P : list Z) (ds : list Z) : nat :=
  List.length (filter (fun d => negb (memZ d P)) ds).

Definition topo_ok (l : list subquestion) (P : list Z) : Prop :=
  forall pre v post, P = pre ++ v :: post -> incl (deps_of l v) pre.

Fixpoint idx (P : list Z) (v : Z) : nat :=
  match P with
  | [] => 0
  | x :: r => if Z.eqb x v then 0 else S (idx r v)
  end.

(** [w] is a walk read backwards: each element is a dependency-edge target of
    the next one. *)
Fixpoint back_chain (E : Z -> Z -> Prop) (w : list Z) : Prop :=
  match w with
  | x :: ((y :: _) as r) => E y x /\ back_chain E r
  | _ => True
  end.

Definition is_root (sq : subquestion) : bool :=
  match depends_on sq with [] => true | _ => false end.

(** The state invariant of the [while q] loop of [topo_sort_subquestions]
    after emitting [res] with queue [q] and counters [indeg]. *)
Definition kahn_inv (l : list subquestion) (res : list subquestion) (q : list Z)
    (indeg : Z -> Z) : Prop :=
  let P := map sq_id res in
  Forall (fun sq => In sq l) res /\
  NoDup (P ++ q) /\
  incl (P ++ q) (map sq_id l) /\
  (forall v, In v q -> incl (deps_of l v) P) /\
  (forall v, In v (map sq_id l) -> indeg v = Z.of_nat (cnt_notin P (deps_of l v))) /\
  (forall v, In v (map sq_id l) -> incl (deps_of l v) P -> In v P \/ In v q) /\
  topo_ok l P.

(** The state invariant of the [while q] loop that holds on any input with
    valid dependencies: emitted and queued ids are distinct ids, with a
    counter at most 0, and every other id has a positive counter. *)
Definition kahn_winv (l : list subquestion) (res : list subquestion) (q : list Z)
    (indeg : Z -> Z) : Prop :=
  let P := map sq_id res in
  NoDup (P ++ q) /\ incl (P ++ q) (map sq_id l) /\
  (forall v, In v (P ++ q) -> (indeg v <= 0)%Z) /\
  (forall v, In v (map sq_id l) -> ~ In v (P ++ q) -> (0 < indeg v)%Z).

(** The keyword-rule hits on the lowered text [q]: for each matching rule,
    in evaluation order, its tool when it is registered. *)
Definition rule_hits (E : env) (q : string) : list py_func :=
  flat_map (fun rule =>
              if existsb (fun w => str_contains w q) (fst rule) then
                match registry_get E (snd rule) with
                | Some m => [tm_func m]
                | None => []
                end
              else []) keyword_rules.

(** The functions of [l] not in [seen] and not seen earlier in [l]. *)
Fixpoint dedup_first (seen : list py_func) (l : list py_func) : list py_func :=
  match l with
  | [] => []
  | f :: r => if existsb (func_eqb f) seen then dedup_first seen r
              else f :: dedup_first (f :: seen) r
  end.

(** An action of the run that leaves [conversation_history] alone. *)
Definition keeps_history {A} (m : M A) : Prop :=
  forall s, history (snd (m s)) = history s.

(** ** More of the agent: history summary, reply parsing, the lazy index *)

(** [FinancialAgent.get_conversation_summary] *)
Record conversation_summary : Type := mk_conversation_summary {
  total_exchanges : nat;
  first_exchange_time : option string;
  last_exchange_time : option string
}.

Definition get_conversation_summary : M conversation_summary :=
  fun s => (Ok (mk_conversation_summary (List.length (history s))
                  (option_map ex_timestamp (hd_error (history s)))
                  (option_map ex_timestamp (hd_error (rev (history s))))), s).

(** [FinancialAgent.get_conversation_history] (a copy of the list). *)
Definition get_conversation_history : M (list exchange) :=
  fun s => (Ok (history s), s).

(** [for s in x]: the items, or [None] when [x] is not iterable
    (iterating a dict gives its keys, a string its characters). *)
Definition py_iter (x : pyval) : option (list pyval) :=
  match x with
  | PList xs => Some xs
  | PDict kvs => Some (map (fun kv => PStr (fst kv)) kvs)
  | PStr s => Some (map (fun c => PStr (str1 c)) (list_ascii_of_string s))
  | _ => None
  end.

(** A list comprehension whose body may raise: the first exception wins. *)
Fixpoint map_result {A B} (f : A -> result B) (l : list A) : result (list B) :=
  match l with
  | [] => Ok []
  | x :: r => rbind (f x) (fun y => rbind (map_result f r) (fun ys => Ok (y :: ys)))
  end.

(** The part of [FinancialAgent.generate_subquestions_from_query] after the
    model's reply, whose [text] is given. The call of [SubQuestion] with
    the keyword arguments of [s] is the
    parameter [sub_of_dict] on a dict item (the pydantic model [SubQuestion]
    is not among the sources); [**s] on any other item raises [TypeError].
    Every exception of the [try] block gives the single fallback
    sub-question. *)
Definition subquestions_of_reply (E : env) (sub_of_dict : pydict -> result subquestion)
    (user_query : string) (text : option string) : list subquestion :=
  let raw_text := text_or text "[]" in
  let cleaned := clean_json_str raw_text in
  let parsed :=
    match json_loads E cleaned with
    | None => Err (ValueError "Expecting value")
    | Some (PDict j) =>
        let subs := if dict_mem j "subquestions" then dict_get j "subquestions" else PList [] in
        match py_iter subs with
        | None => Err (TypeError "object is not iterable")
        | Some items =>
            map_result (fun s => match s with
                                 | PDict d => sub_of_dict d
                                 | _ => Err (TypeError "argument after ** must be a mapping")
                                 end) items
        end
    | Some _ => Err (AttributeError "object has no attribute 'get'")
    end in
  match parsed with
  | Ok subs => subs
  | Err _ => [mk_subquestion 1 user_query []]
  end.

(** [self._tool_index]: [None], [False] after a failed build, or the
    index. *)
Inductive index_slot (I : Type) : Type :=
| Unbuilt
| BuildFailed
| Built (ix : I).
Arguments Unbuilt {I}.
Arguments BuildFailed {I}.
Arguments Built {I} ix.

(** The index fields of the agent, and the number of calls made so far to
    [build_tool_vector_index_from_registry]. *)
Record index_state (I : Type) : Type := mk_index_state {
  slot : index_slot I;
  lazy_load : bool;
  build_calls : nat
}.
Arguments mk_index_state {I} slot lazy_load build_calls.
Arguments slot {I} i.
Arguments lazy_load {I} i.
Arguments build_calls {I} i.

(** [FinancialAgent._build_tool_index]; [builder] is the outcome of
    [build_tool_vector_index_from_registry(self.registry)]. *)
Definition build_tool_index {I} (builder : result I) (st : index_state I) : index_state I :=
  match slot st with
  | Unbuilt =>
      mk_index_state (match builder with Ok ix => Built ix | Err _ => BuildFailed end)
        (lazy_load st) (S (build_calls st))
  | _ => st
  end.

(** The [tool_index] property. A built index object is truthy (the
    vector store defines neither [__bool__] nor [__len__]). *)
Definition get_tool_index {I} (builder : result I) (st : index_state I) : option I * index_state I :=
  let st' := match slot st with
             | Unbuilt => if lazy_load st then build_tool_index builder st else st
             | _ => st
             end in
  (match slot st' with Built ix => Some ix | _ => None end, st').

(** The index part of [FinancialAgent.__init__]. *)
Definition init_index {I} (builder : result I) (lazy : bool) : index_state I :=
  let st := mk_index_state Unbuilt lazy 0 in
  if lazy then st else build_tool_index builder st.

(** [n] reads of [agent.tool_index]. *)
Fixpoint read_tool_index {I} (builder : result I) (n : nat) (st : index_state I)
    : list (option I) * index_state I :=
  match n with
  | O => ([], st)
  | S m =>
      let (v, st1) := get_tool_index builder st in
      let (vs, st2) := read_tool_index builder m st1 in
      (v :: vs, st2)
  end.

(** ** The tool registry ([finance_agent/tool_registry.py]) *)

(** String-keyed dicts of any values. *)
Fixpoint sdict_get {A} (d : list (string * A)) (k : string) : option A :=
  match d with
  | [] => None
  | (k', v) :: r => if String.eqb k' k then Some v else sdict_get r k
  end.

Fixpoint sdict_set {A} (d : list (string * A)) (k : string) (v : A) : list (string * A) :=
  match d with
  | [] => [(k, v)]
  | (k', v') :: r => if String.eqb k' k then (k', v) :: r else (k', v') :: sdict_set r k v
  end.

(** A parameter annotation, as far as [_callable_to_schema] tells them
    apart: none, [str], [int], [float], [bool], anything else. *)
Inductive annotation : Type :=
| AnnEmpty
| AnnStr
| AnnInt
| AnnFloat
| AnnBool
| AnnOther.

(** One parameter of [inspect.signature(func)]: its name, kind,
    annotation and whether it has a default. *)
Record sig_param : Type := mk_sig_param {
  sp_name : string;
  sp_kind : param_kind;
  sp_annotation : annotation;
  sp_has_default : bool
}.

Definition json_type (a : annotation) : string :=
  match a with
  | AnnEmpty => "string"
  | AnnStr => "string"
  | AnnInt => "integer"
  | AnnFloat => "number"
  | AnnBool => "boolean"
  | AnnOther => "string"
  end.

(** One pass of the loop of [_callable_to_schema] over [(props, required)]. *)
Definition schema_step (func_name : string) (acc : pydict * list string) (p : sig_param)
    : pydict * list string :=
  let '(props, required) := acc in
  match sp_kind p with
  | VAR_POSITIONAL | VAR_KEYWORD => acc
  | _ =>
      (dict_set props (sp_name p)
         (PDict [("type", PStr (json_type (sp_annotation p)));
                 ("description", PStr ("Parameter " ++ sp_name p ++ " of " ++ func_name)%string)]),
       if sp_has_default p then required else required ++ [sp_name p])
  end.

(** [_callable_to_schema]: [func_name] is [func.__name__] and [params]
    the parameters of its signature, in order. *)
Definition callable_to_schema (func_name : string) (params : list sig_param) : pydict :=
  let '(props, required) := fold_left (schema_step func_name) params ([], []) in
  let schema := [("type", PStr "object"); ("properties", PDict props)] in
  match required with
  | [] => schema
  | _ => dict_set schema "required" (PList (map PStr required))
  end.

(** [ToolMeta] *)
Record reg_meta : Type := mk_reg_meta {
  rm_name : string;
  rm_description : string;
  rm_func : py_func;
  rm_parameters_schema : pydict
}.

(** [ToolRegistry._tools] *)
Definition tool_registry : Type := list (string * reg_meta).

(** [ToolRegistry.register]; [sig] is [inspect.signature(func)], and
    [parameters_schema] is [None] or the schema given. *)
Definition register (reg : tool_registry) (name description : string) (func : py_func)
    (sig : list sig_param) (parameters_schema : option pydict) : tool_registry :=
  let schema := match parameters_schema with
                | Some s => s
                | None => callable_to_schema (fn_name func) sig
                end in
  sdict_set reg name (mk_reg_meta name description func schema).

(** [ToolRegistry.get] *)
Definition registry_lookup (reg : tool_registry) (name : string) : option reg_meta :=
  sdict_get reg name.

(** [ToolRegistry.list_tools] *)
Definition list_tools (reg : tool_registry) : tool_registry := reg.

(** A registration: the arguments of one [register] call. *)
Record registration : Type := mk_registration {
  rg_name : string;
  rg_description : string;
  rg_func : py_func;
  rg_sig : list sig_param;
  rg_schema : option pydict
}.

Definition register_all (reg : tool_registry) (rs : list registration) : tool_registry :=
  fold_left (fun r x => register r (rg_name x) (rg_description x) (rg_func x) (rg_sig x) (rg_schema x))
    rs reg.

(** ** The vector index ([finance_agent/vector_index.py]) *)

(** A [Document]: its [page_content] and its metadata. *)
Record tool_doc : Type := mk_tool_doc {
  page_content : string;
  md_tool_name : string;
  md_description : string;
  md_schema : pydict
}.

Definition tool_doc_of (meta : reg_meta) : tool_doc :=
  mk_tool_doc
    ("Tool: " ++ rm_name meta ++ str1 newline ++
     "Description: " ++ rm_description meta ++ str1 newline ++
     "Params: " ++ py_repr (PDict (rm_parameters_schema meta)))%string
    (rm_name meta) (rm_description meta) (rm_parameters_schema meta).

(** [build_tool_vector_index_from_registry]; [from_documents] is
    [FAISS.from_documents(docs, embedding)], which may raise. Building a
    document from these string and dict values does not raise, so the
    per-tool [except] branch is never taken. *)
Definition build_tool_vector_index_from_registry {I} (from_documents : list tool_doc -> result I)
    (reg : tool_registry) : result I :=
  let tools := list_tools reg in
  match tools with
  | [] => Err (ValueError "No tools registered in the registry.")
  | _ =>
      let docs := map (fun nm => tool_doc_of (snd nm)) tools in
      match docs with
      | [] => Err (ValueError "No documents created for tool vector index.")
      | _ => from_documents docs
      end
  end.

(** The text as the segments spell it. *)
Definition seg_text (sg : segment) : string :=
  match sg with Lit c => str1 c | Tok raw _ => raw end.

Definition render (segs : list segment) : string :=
  fold_right (fun sg acc => (seg_text sg ++ acc)%string) EmptyString segs.

(** The keys of the tokens among the segments. *)
Definition seg_keys (segs : list segment) : list string :=
  flat_map (fun sg => match sg with Tok _ k => [k] | Lit _ => [] end) segs.

(** [l1] is [l2] with some items left out. *)
Inductive subseq {A : Type} : list A -> list A -> Prop :=
| subseq_nil : subseq [] []
| subseq_skip x l1 l2 : subseq l1 l2 -> subseq l1 (x :: l2)
| subseq_take x l1 l2 : subseq l1 l2 -> subseq (x :: l1) (x :: l2).

(** Every record of [answered_by_id] has its key as its ["id"]. *)
Definition ids_match (answered : list (Z * record)) : Prop :=
  forall k r, In (k, r) answered -> dict_get r "id" = PInt k.

(** ** Vocabulary of the further properties *)

(** [f] is the function of some registered tool. *)
Definition registered (E : env) (f : py_func) : Prop :=
  exists name m, registry_get E name = Some m /\ tm_func m = f.

(** What a read of [tool_index] gives once the index is built by
    [builder]: the index, or [None] when the build raised. *)
Definition index_value {I} (builder : result I) : option I :=
  match builder with Ok ix => Some ix | Err _ => None end.

(** The parameters [_callable_to_schema] describes: all but [*args] and
    [**kwargs]. *)
Definition in_schema (p : sig_param) : bool :=
  match sp_kind p with VAR_POSITIONAL | VAR_KEYWORD => false | _ => true end.

(** The ["properties"] entry of such a parameter. *)
Definition schema_entry (func_name : string) (p : sig_param) : string * pyval :=
  (sp_name p, PDict [("type", PStr (json_type (sp_annotation p)));
                     ("description", PStr ("Parameter " ++ sp_name p ++ " of " ++ func_name)%string)]).

(** The keys of the registry are distinct, and each [ToolMeta] carries its
    key as its name. *)
Definition well_keyed (reg : tool_registry) : Prop :=
  NoDup (map fst reg) /\ forall k m, In (k, m) reg -> rm_name m = k.

(** A model reply with one sub-question, as JSON text. *)
Definition subquestions_reply_text : string :=
  ("{" ++ str1 dq ++ "subquestions" ++ str1 dq ++ ": [{" ++ str1 dq ++ "id" ++ str1 dq ++ ": 1, " ++
   str1 dq ++ "question" ++ str1 dq ++ ": " ++ str1 dq ++ "Which ticker?" ++ str1 dq ++ "}]}")%string.

(** [sample_env] with a [json.loads] that knows three texts: ["[]"],
    ["{}"] and [subquestions_reply_text]; it raises on any other. *)
Definition reply_env : env :=
  mk_env (registry_get sample_env) (tool_index sample_env) (oracle sample_env) (tool_impl sample_env)
    (fun s => if String.eqb s "[]" then Some (PList [])
              else if String.eqb s "{}" then Some (PDict [])
              else if String.eqb s subquestions_reply_text
              then Some (PDict [("subquestions", PList [PDict [("id", PInt 1); ("question", PStr "Which ticker?")]])])
              else None).

(** A stand-in for the pydantic model [SubQuestion] (its module is not in
    the sources): an int ["id"] and a str ["question"] are required,
    [depends_on] defaults to the empty list. *)
Definition sample_sub_of_dict (d : pydict) : result subquestion :=
  match dict_get d "id", dict_get d "question" with
  | PInt i, PStr q => Ok (mk_subquestion i q [])
  | _, _ => Err (ValueError "validation error for SubQuestion")
  end.

(** * Properties *)

Example topo_chain :
  let n1 := mk_subquestion 1 "a" [] in
  let n2 := mk_subquestion 2 "b" [1%Z] in
  topo_sort_subquestions [n2; n1] = Ok [n1; n2].
Proof. reflexivity. Qed.

Example topo_cycle :
  let n1 := mk_subquestion 1 "a" [2%Z] in
  let n2 := mk_subquestion 2 "b" [1%Z] in
  topo_sort_subquestions [n1; n2] = Err (ValueError cycle_msg).
Proof. reflexivity. Qed.

Example str_of_Z_test : str_of_Z 42 = "42" /\ str_of_Z (-7) = "-7".
Proof. split; reflexivity. Qed.

Example resolve_test_ok :
  resolve_placeholders "Price of {{TICKER_FROM_Q1}}"
    [(1%Z, [("id", PInt 1); ("answer", PStr "x"); ("used_tools", PList []);
            ("extracted_data", PDict [("ticker", PStr "FPT")])])]
  = Ok ("Price of FPT", []).
Proof. reflexivity. Qed.

Example resolve_test_missing :
  resolve_placeholders "Price of {{ TICKER_FROM_Q1 }} and {{X}}" []
  = Ok ("Price of {{ TICKER_FROM_Q1 }} and {{X}}", ["TICKER_FROM_Q1"; "X"]).
Proof. reflexivity. Qed.

Example resolve_test_heuristic :
  resolve_placeholders "{{A_B_FROM_Q12}}!"
    [(12%Z, [("answer", PStr "  The ticker is:  FPT corp ")])]
  = Ok ("FPT!", []).
Proof. reflexivity. Qed.

Example repr_test :
  py_repr (PList [PStr "A"; PStr "it's"; PInt 3]) = ("['A', " ++ str1 dq ++ "it's" ++ str1 dq ++ ", 3]")%string.
Proof. reflexivity. Qed.

(** ** Scheduler: list and queue facts *)

Lemma memZ_In x l : memZ x l = true <-> In x l.
Proof.
  unfold memZ. rewrite existsb_exists. split.
  - intros [y [Hy He]]. apply Z.eqb_eq in He. subst; auto.
  - intros H. exists x. split; auto. apply Z.eqb_refl.
Qed.

Lemma memZ_app x P Q : memZ x (P ++ Q) = memZ x P || memZ x Q.
Proof. unfold memZ. apply existsb_app. Qed.

Lemma relax_spec : forall neis indeg q,
  (forall v, fst (relax neis indeg q) v = (indeg v - Z.of_nat (count_occ Z.eq_dec neis v))%Z) /\
  exists added, snd (relax neis indeg q) = q ++ added /\ NoDup added /\
    (forall v, In v added <-> (1 <= indeg v <= Z.of_nat (count_occ Z.eq_dec neis v))%Z).
Proof.
  induction neis as [|nei r IH]; intros indeg q; simpl.
  - split; [intros v; lia|]. exists []. rewrite app_nil_r.
    split; [reflexivity|]. split; [constructor|]. intros v; simpl; lia.
  - set (indeg' := upd indeg nei (indeg nei - 1)%Z).
    assert (Hn : indeg' nei = (indeg nei - 1)%Z)
      by (unfold indeg', upd; rewrite Z.eqb_refl; reflexivity).
    assert (Hv : forall v, v <> nei -> indeg' v = indeg v)
      by (intros v Hne; unfold indeg', upd; destruct (Z.eqb_spec v nei); congruence).
    destruct (IH indeg' (if (indeg' nei =? 0)%Z then q ++ [nei] else q))
      as [Hi [added [Hq [Hnd Hin]]]].
    split.
    + intros v. rewrite Hi. destruct (Z.eq_dec nei v) as [->|Hne].
      * rewrite Hn. lia.
      * rewrite (Hv v (not_eq_sym Hne)). reflexivity.
    + rewrite Hq. rewrite Hn.
      destruct (Z.eqb_spec (indeg nei - 1) 0) as [H0|H0].
      * exists (nei :: added). rewrite <- app_assoc. split; [reflexivity|].
        split.
        -- constructor; auto. intros Hin'. apply Hin in Hin'. lia.
        -- intros v. simpl. rewrite Hin. destruct (Z.eq_dec nei v) as [->|Hne].
           ++ rewrite Hn. lia.
           ++ rewrite (Hv v (not_eq_sym Hne)). split; [intros [H|H]; [congruence|exact H]|auto].
      * exists added. split; [reflexivity|]. split; [exact Hnd|].
        intros v. rewrite Hin. destruct (Z.eq_dec nei v) as [->|Hne].
        -- rewrite Hn. lia.
        -- rewrite (Hv v (not_eq_sym Hne)). tauto.
Qed.

Lemma cnt_notin_snoc P x ds : ~ In x P ->
  cnt_notin P ds = (cnt_notin (P ++ [x]) ds + count_occ Z.eq_dec ds x)%nat.
Proof.
  intros Hx. unfold cnt_notin. induction ds as [|d ds IH]; simpl; [reflexivity|].
  rewrite memZ_app. simpl.
  destruct (memZ d P) eqn:HdP; simpl.
  - destruct (Z.eq_dec d x) as [->|Hne].
    + apply memZ_In in HdP. contradiction.
    + exact IH.
  - destruct (Z.eqb_spec d x) as [->|Hne]; simpl.
    + destruct (Z.eq_dec x x) as [_|]; [|congruence]. rewrite IH. lia.
    + destruct (Z.eq_dec d x); [congruence|]. rewrite IH. reflexivity.
Qed.

Lemma cnt_notin_zero P ds : cnt_notin P ds = 0%nat <-> incl ds P.
Proof.
  unfold cnt_notin. induction ds as [|d ds IH]; simpl.
  - split; [intros _; apply incl_nil_l|reflexivity].
  - destruct (memZ d P) eqn:HdP; simpl.
    + rewrite IH. apply memZ_In in HdP. split.
      * intros H. apply incl_cons; auto.
      * intros H. eapply incl_cons_inv; eauto.
    + split; [discriminate|]. intros H. exfalso.
      assert (In d P) by (apply H; left; auto). apply memZ_In in H0. congruence.
Qed.

Lemma cnt_notin_nil ds : cnt_notin [] ds = List.length ds.
Proof. unfold cnt_notin. induction ds; simpl; auto. Qed.

Lemma idx_lt pre r d : In d pre -> (idx (pre ++ r) d < List.length pre)%nat.
Proof.
  induction pre as [|x pre IH]; simpl; [tauto|].
  intros [->|H]; [rewrite Z.eqb_refl; lia|].
  destruct (x =? d)%Z; [lia|]. specialize (IH H). lia.
Qed.

Lemma idx_at pre v post : ~ In v pre -> idx (pre ++ v :: post) v = List.length pre.
Proof.
  induction pre as [|x pre IH]; simpl; intros H.
  - rewrite Z.eqb_refl. reflexivity.
  - destruct (Z.eqb_spec x v); [exfalso; apply H; auto|]. rewrite IH; auto.
Qed.

Section Walks.
Variable E : Z -> Z -> Prop.

Lemma back_chain_app_r w1 w2 : back_chain E (w1 ++ w2) -> back_chain E w2.
Proof.
  induction w1 as [|x w1 IH]; simpl; auto.
  destruct (w1 ++ w2) eqn:Hw; simpl.
  - apply app_eq_nil in Hw as [-> ->]. simpl. auto.
  - intros [_ H]. apply IH. exact H.
Qed.

Lemma back_chain_app_l w1 w2 : back_chain E (w1 ++ w2) -> back_chain E w1.
Proof.
  induction w1 as [|x w1 IH]; simpl; auto.
  destruct w1 as [|y w1]; simpl; auto.
  intros [Hy H]. split; [exact Hy|apply IH; exact H].
Qed.

Lemma back_chain_segment : forall m x y,
  back_chain E (x :: m ++ [y]) -> clos_trans Z E y x.
Proof.
  induction m as [|z m IH]; simpl; intros x y.
  - intros [H _]. apply t_step. exact H.
  - intros [Hz H]. eapply t_trans; [apply IH; exact H|apply t_step; exact Hz].
Qed.

Lemma walk_exists (U : Z -> Prop) (Hstep : forall v, U v -> exists d, U d /\ E d v) :
  forall k v, U v -> exists w, List.length w = S k /\ Forall U w /\ back_chain E w /\
                          hd_error w = Some v.
Proof.
  induction k as [|k IH]; intros v Hv.
  - exists [v]. simpl. repeat split; auto.
  - destruct (Hstep v Hv) as [d [Hd Hdv]].
    destruct (IH d Hd) as [w [Hl [HU [Hc Hh]]]].
    exists (v :: w). destruct w as [|y w]; [discriminate|].
    simpl in Hh. injection Hh as ->. simpl in *.
    repeat split; auto.
Qed.

Lemma stuck_cycle (ids : list Z) (U : Z -> Prop) :
  (forall v, U v -> In v ids) ->
  (forall v, U v -> exists d, U d /\ E d v) ->
  forall v, U v -> exists w, clos_trans Z E w w.
Proof.
  intros Hids Hstep v Hv.
  destruct (walk_exists U Hstep (List.length ids) v Hv) as [w [Hl [HU [Hc _]]]].
  assert (Hnd : ~ NoDup w).
  { intros Hnd. assert (Hle := NoDup_incl_length Hnd (l' := ids)).
    assert (incl w ids).
    { intros x Hx. apply Hids. rewrite Forall_forall in HU. auto. }
    specialize (Hle H). lia. }
  destruct (ListDec.not_NoDup (fun x y => match Z.eq_dec x y with left H => or_introl H | right H => or_intror H end) Hnd) as [a [l1 [l2 [l3 ->]]]].
  apply back_chain_app_r in Hc.
  replace (a :: l2 ++ a :: l3) with ((a :: l2 ++ [a]) ++ l3) in Hc
    by (simpl; rewrite <- app_assoc; reflexivity).
  apply back_chain_app_l in Hc.
  exists a. apply (back_chain_segment l2 a a Hc).
Qed.

End Walks.

(** ** Scheduler: the graph built from the input *)

Lemma forallb_false_exists {A} (f : A -> bool) xs :
  forallb f xs = false -> exists x, In x xs /\ f x = false.
Proof.
  induction xs as [|x xs IH]; simpl; [discriminate|].
  destruct (f x) eqn:Hf; simpl; [|eauto].
  intros H. destruct (IH H) as [y [Hy Hfy]]. eauto.
Qed.

Lemma id_map_some l v sq : id_map l v = Some sq -> In sq l /\ sq_id sq = v.
Proof.
  unfold id_map.
  assert (G : forall acc, fold_left (fun acc sq => if (sq_id sq =? v)%Z then Some sq else acc) l acc
                        = Some sq -> acc = Some sq \/ (In sq l /\ sq_id sq = v)).
  { induction l as [|a r IH]; simpl; intros acc H; [auto|].
    destruct (IH _ H) as [Ha|[Hin Hid]]; [|right; auto].
    destruct (Z.eqb_spec (sq_id a) v); [|auto].
    injection Ha as ->. right; auto. }
  intros H. destruct (G None H); [discriminate|assumption].
Qed.

Lemma id_map_in l v : In v (map sq_id l) -> exists sq, id_map l v = Some sq.
Proof.
  unfold id_map.
  assert (G : forall acc, (acc <> None \/ In v (map sq_id l)) ->
    fold_left (fun acc sq => if (sq_id sq =? v)%Z then Some sq else acc) l acc <> None).
  { induction l as [|a r IH]; simpl; intros acc [H|H]; try tauto;
      apply IH; destruct (Z.eqb_spec (sq_id a) v); try (left; discriminate); auto.
    destruct H as [H|H]; [congruence|auto]. }
  intros H. specialize (G None (or_intror H)).
  destruct (fold_left _ l None); [eauto|congruence].
Qed.

Lemma node_unique l a b : NoDup (map sq_id l) -> In a l -> In b l -> sq_id a = sq_id b -> a = b.
Proof.
  induction l as [|x r IH]; simpl; [tauto|]. intros Hnd Ha Hb He.
  inversion Hnd as [|? ? Hx Hnd']; subst.
  destruct Ha as [->|Ha]; destruct Hb as [->|Hb]; auto.
  - exfalso. apply Hx. rewrite He. apply in_map. exact Hb.
  - exfalso. apply Hx. rewrite <- He. apply in_map. exact Ha.
Qed.

Lemma deps_of_in l sq : NoDup (map sq_id l) -> In sq l -> deps_of l (sq_id sq) = depends_on sq.
Proof.
  intros Hnd Hin. unfold deps_of.
  destruct (find (fun x => (sq_id x =? sq_id sq)%Z) l) as [x|] eqn:Hf.
  - apply find_some in Hf as [Hx He]. apply Z.eqb_eq in He.
    rewrite (node_unique l x sq Hnd Hx Hin He). reflexivity.
  - exfalso. pose proof (find_none _ _ Hf sq Hin) as H. simpl in H.
    rewrite Z.eqb_refl in H. discriminate.
Qed.

Lemma deps_of_edge l v d : In d (deps_of l v) -> dep_edge l d v.
Proof.
  unfold deps_of. destruct (find _ l) as [sq|] eqn:Hf; [|simpl; tauto].
  apply find_some in Hf as [Hin He]. apply Z.eqb_eq in He.
  intros Hd. exists sq. auto.
Qed.

Lemma in_count_notin l v : ~ In v (map sq_id l) -> in_count l v = 0%nat.
Proof.
  induction l as [|a r IH]; simpl; intros H; [reflexivity|].
  destruct (Z.eqb_spec (sq_id a) v); [tauto|]. apply IH. tauto.
Qed.

Lemma in_count_deps l v : NoDup (map sq_id l) -> in_count l v = List.length (deps_of l v).
Proof.
  induction l as [|a r IH]; simpl; intros Hnd; [reflexivity|].
  inversion Hnd as [|? ? Hx Hnd']; subst. unfold deps_of; simpl.
  destruct (Z.eqb_spec (sq_id a) v) as [<-|Hne].
  - rewrite (in_count_notin r (sq_id a) Hx). lia.
  - apply IH. exact Hnd'.
Qed.

Lemma count_occ_filter_eqb ds u :
  List.length (filter (fun d => (d =? u)%Z) ds) = count_occ Z.eq_dec ds u.
Proof.
  induction ds as [|d ds IH]; simpl; [reflexivity|].
  destruct (Z.eqb_spec d u); destruct (Z.eq_dec d u); simpl; congruence.
Qed.

Lemma count_occ_const {A} (xs : list A) s v :
  count_occ Z.eq_dec (map (fun _ => s) xs) v = if (s =? v)%Z then List.length xs else 0%nat.
Proof.
  induction xs as [|x xs IH]; simpl; [destruct (s =? v)%Z; reflexivity|].
  rewrite IH. destruct (Z.eq_dec s v); destruct (Z.eqb_spec s v); congruence.
Qed.

Lemma succ_list_in l u v : In v (succ_list l u) -> In v (map sq_id l).
Proof.
  unfold succ_list. rewrite in_flat_map. intros [sq [Hsq Hv]].
  apply in_map_iff in Hv as [x [<- _]]. apply in_map. exact Hsq.
Qed.

Lemma succ_count l u v : NoDup (map sq_id l) ->
  count_occ Z.eq_dec (succ_list l u) v = count_occ Z.eq_dec (deps_of l v) u.
Proof.
  induction l as [|a r IH]; simpl; intros Hnd; [reflexivity|].
  inversion Hnd as [|? ? Hx Hnd']; subst.
  unfold succ_list in *; simpl. rewrite count_occ_app, count_occ_const.
  unfold deps_of; simpl.
  destruct (Z.eqb_spec (sq_id a) v) as [<-|Hne].
  - rewrite count_occ_filter_eqb.
    assert (count_occ Z.eq_dec (flat_map (fun sq => map (fun _ => sq_id sq)
              (filter (fun d => (d =? u)%Z) (depends_on sq))) r) (sq_id a) = 0%nat).
    { apply count_occ_not_In. intros Hin. apply Hx. eapply succ_list_in. exact Hin. }
    lia.
  - simpl. apply IH. exact Hnd'.
Qed.

Lemma add_edges_ok ids sid deps : forall g i,
  (forall d, In d deps -> In d ids) ->
  exists g' i', add_edges ids sid deps g i = Ok (g', i') /\
    (forall u, g' u = g u ++ map (fun _ => sid) (filter (fun d => (d =? u)%Z) deps)) /\
    (forall v, i' v = (i v + if (v =? sid)%Z then Z.of_nat (List.length deps) else 0)%Z).
Proof.
  induction deps as [|dep ds IH]; simpl; intros g i Hd.
  - exists g, i. split; [reflexivity|]. split; intros; [rewrite app_nil_r|destruct (v =? sid)%Z; lia]; reflexivity.
  - assert (Hm : memZ dep ids = true) by (apply memZ_In; auto). rewrite Hm. simpl.
    destruct (IH (upd g dep (g dep ++ [sid])) (upd i sid (i sid + 1)%Z)) as [g' [i' [He [Hg Hi]]]];
      [intros; auto|].
    exists g', i'. split; [exact He|]. split.
    + intros u. rewrite Hg. unfold upd. destruct (Z.eqb_spec u dep) as [->|Hne].
      * rewrite Z.eqb_refl. simpl. rewrite <- app_assoc. reflexivity.
      * destruct (Z.eqb_spec dep u); [congruence|]. reflexivity.
    + intros v. rewrite Hi. unfold upd. rewrite ?Zpos_P_of_succ_nat. destruct (Z.eqb_spec v sid) as [->|]; lia.
Qed.

Lemma add_edges_cases ids sid deps : forall g i,
  (exists gi, add_edges ids sid deps g i = Ok gi /\ forall d, In d deps -> In d ids) \/
  (exists msg, add_edges ids sid deps g i = Err (ValueError msg) /\
     exists d, In d deps /\ ~ In d ids).
Proof.
  induction deps as [|dep ds IH]; simpl; intros g i.
  - left. eexists; split; [reflexivity|tauto].
  - destruct (memZ dep ids) eqn:Hm; simpl.
    + destruct (IH (upd g dep (g dep ++ [sid])) (upd i sid (i sid + 1)%Z))
        as [[gi [He Hd]]|[msg [He [d [Hd Hn]]]]].
      * left. exists gi. split; [exact He|]. apply memZ_In in Hm. intros d [<-|H]; auto.
      * right. exists msg. eauto.
    + right. eexists. split; [reflexivity|]. exists dep. split; [auto|].
      intros H. apply memZ_In in H. congruence.
Qed.

Lemma build_graph_ok ids sqs : forall g i,
  (forall sq d, In sq sqs -> In d (depends_on sq) -> In d ids) ->
  exists g' i', build_graph ids sqs g i = Ok (g', i') /\
    (forall u, g' u = g u ++ succ_list sqs u) /\
    (forall v, i' v = (i v + Z.of_nat (in_count sqs v))%Z).
Proof.
  induction sqs as [|sq r IH]; simpl; intros g i Hv.
  - exists g, i. split; [reflexivity|]. split; intros; [rewrite app_nil_r; reflexivity|simpl; lia].
  - destruct (add_edges_ok ids (sq_id sq) (depends_on sq) g i) as [g1 [i1 [He [Hg1 Hi1]]]];
      [intros; eauto|].
    rewrite He. simpl.
    destruct (IH g1 i1) as [g' [i' [Hb [Hg Hi]]]]; [intros; eauto|].
    exists g', i'. split; [exact Hb|]. split.
    + intros u. rewrite Hg, Hg1. unfold succ_list. simpl. rewrite app_assoc. reflexivity.
    + intros v. rewrite Hi, Hi1. simpl in_count.
      destruct (Z.eqb_spec v (sq_id sq)); destruct (Z.eqb_spec (sq_id sq) v); subst; try congruence; lia.
Qed.

Lemma build_graph_err ids sqs : forall g i,
  (exists sq d, In sq sqs /\ In d (depends_on sq) /\ ~ In d ids) ->
  exists msg, build_graph ids sqs g i = Err (ValueError msg).
Proof.
  induction sqs as [|sq r IH]; simpl; intros g i [x [d [Hx [Hd Hn]]]]; [tauto|].
  destruct (add_edges_cases ids (sq_id sq) (depends_on sq) g i)
    as [[gi [He Hall]]|[msg [He _]]]; rewrite He; simpl; [|eauto].
  apply IH. destruct Hx as [<-|Hx]; [exfalso; eauto|eauto].
Qed.

Lemma dedup_ids_id : forall xs seen, NoDup xs -> (forall x, In x xs -> ~ In x seen) ->
  dedup_ids_aux seen xs = xs.
Proof.
  induction xs as [|x xs IH]; simpl; intros seen Hnd Hs; [reflexivity|].
  inversion Hnd; subst.
  destruct (memZ x seen) eqn:Hm.
  - apply memZ_In in Hm. exfalso. apply (Hs x); auto.
  - f_equal. apply IH; auto. intros y Hy Hin. apply in_app_or in Hin as [Hin|[<-|[]]].
    + apply (Hs y); auto.
    + contradiction.
Qed.

(** ** Scheduler: the [while q] loop *)

Lemma topo_ok_snoc l P x : topo_ok l P -> incl (deps_of l x) P -> topo_ok l (P ++ [x]).
Proof.
  intros Ht Hx pre v post.
  destruct post as [|y post'] using rev_ind.
  - intros He. apply app_inj_tail in He as [-> ->]. exact Hx.
  - intros He. rewrite app_comm_cons, app_assoc in He.
    apply app_inj_tail in He as [He _]. apply (Ht pre v post' He).
Qed.

Lemma kahn_prefix idm g : forall fuel q indeg res r,
  kahn fuel idm g q indeg res = Ok r -> exists rest, r = res ++ rest.
Proof.
  induction fuel as [|f IH]; simpl; intros q indeg res r H; [discriminate|].
  destruct q as [|nid q'].
  - injection H as <-. exists []. rewrite app_nil_r. reflexivity.
  - destruct (idm nid) as [sq|]; [|discriminate].
    destruct (relax (g nid) indeg q') as [i' q''].
    destruct (IH _ _ _ _ H) as [rest ->]. exists (sq :: rest).
    rewrite <- app_assoc. reflexivity.
Qed.

(** FIFO: the nodes at the front of the queue are emitted first, in order. *)
Lemma kahn_fifo idm g : forall rs fuel q indeg res r,
  (forall sq, In sq rs -> idm (sq_id sq) = Some sq) ->
  kahn fuel idm g (map sq_id rs ++ q) indeg res = Ok r ->
  exists rest, r = res ++ rs ++ rest.
Proof.
  induction rs as [|sq rs IH]; simpl; intros fuel q indeg res r Hm H.
  - apply (kahn_prefix idm g fuel q indeg res r H).
  - destruct fuel as [|f]; simpl in H; [discriminate|].
    rewrite (Hm sq (or_introl eq_refl)) in H.
    destruct (relax_spec (g (sq_id sq)) indeg (map sq_id rs ++ q)) as [_ [added [Hq _]]].
    destruct (relax (g (sq_id sq)) indeg (map sq_id rs ++ q)) as [i' q''] eqn:Hr.
    simpl in Hq. subst q''. rewrite <- app_assoc in H.
    destruct (IH f (q ++ added) i' (res ++ [sq]) r) as [rest ->]; auto.
    exists rest. rewrite <- app_assoc. reflexivity.
Qed.

Section Scheduler.
Variable l : list subquestion.
Hypothesis Huniq : NoDup (map sq_id l).
Hypothesis Hvalid : forall sq d, In sq l -> In d (depends_on sq) -> In d (map sq_id l).

Lemma kahn_inv_step res nid q' indeg sq i' added :
  kahn_inv l res (nid :: q') indeg -> id_map l nid = Some sq ->
  (forall v, i' v = (indeg v - Z.of_nat (count_occ Z.eq_dec (succ_list l nid) v))%Z) ->
  NoDup added ->
  (forall v, In v added <-> (1 <= indeg v <= Z.of_nat (count_occ Z.eq_dec (succ_list l nid) v))%Z) ->
  kahn_inv l (res ++ [sq]) (q' ++ added) i'.
Proof.
  intros [Hl [Hnd [Hinc [Hq [Hind [Hcl Htop]]]]]] Hsq Hi' Hnda Hadd.
  set (P := map sq_id res) in *.
  apply id_map_some in Hsq as [Hsql Hsqid].
  assert (HP' : map sq_id (res ++ [sq]) = P ++ [nid]) by (rewrite map_app; simpl; rewrite Hsqid; reflexivity).
  assert (HnP : ~ In nid P) by (intros H; apply NoDup_remove_2 in Hnd; apply Hnd, in_or_app; auto).
  assert (Hcnt : forall v, In v (map sq_id l) ->
            count_occ Z.eq_dec (succ_list l nid) v = count_occ Z.eq_dec (deps_of l v) nid)
    by (intros; apply succ_count; exact Huniq).
  (* the nodes newly released are ids whose last missing dependency was [nid] *)
  assert (Hnew : forall v, In v added ->
            In v (map sq_id l) /\ In nid (deps_of l v) /\ incl (deps_of l v) (P ++ [nid])).
  { intros v Hv. apply Hadd in Hv as Hb.
    assert (Hvid : In v (map sq_id l)).
    { apply (succ_list_in l nid). apply (count_occ_In Z.eq_dec). lia. }
    rewrite (Hind v Hvid), (Hcnt v Hvid) in Hb.
    rewrite (cnt_notin_snoc P nid (deps_of l v) HnP) in Hb.
    split; [exact Hvid|]. split.
    - apply (count_occ_In Z.eq_dec). lia.
    - apply cnt_notin_zero. lia. }
  assert (HqP : forall v, In v (nid :: q') -> ~ In nid (deps_of l v))
    by (intros v Hv Hd; apply HnP, (Hq v Hv), Hd).
  split; [|split; [|split; [|split; [|split; [|split]]]]]; rewrite ?HP'.
  - apply Forall_app. split; [exact Hl|]. constructor; auto.
  - replace ((P ++ [nid]) ++ q' ++ added) with ((P ++ nid :: q') ++ added)
      by (rewrite <- !app_assoc; reflexivity).
    apply NoDup_app; [exact Hnd|exact Hnda|].
    intros v Hv Hva. destruct (Hnew v Hva) as [_ [Hdn _]].
    apply in_app_or in Hv as [Hv|Hv].
    + apply in_split in Hv as [pre [post Hpp]].
      apply HnP. rewrite Hpp. apply in_or_app. left. apply (Htop pre v post Hpp). exact Hdn.
    + apply (HqP v Hv Hdn).
  - intros v Hv. rewrite <- app_assoc in Hv. apply in_app_or in Hv as [Hv|Hv].
    + apply Hinc, in_or_app. left. exact Hv.
    + simpl in Hv. destruct Hv as [<-|Hv]; [apply Hinc, in_or_app; right; left; auto|].
      apply in_app_or in Hv as [Hv|Hv].
      * apply Hinc, in_or_app. right. right. exact Hv.
      * apply (Hnew v Hv).
  - intros v Hv. apply in_app_or in Hv as [Hv|Hv].
    + intros x Hx. apply in_or_app. left. apply (Hq v (or_intror Hv) x Hx).
    + apply (Hnew v Hv).
  - intros v Hv. rewrite Hi', (Hind v Hv), (Hcnt v Hv).
    rewrite (cnt_notin_snoc P nid (deps_of l v) HnP). lia.
  - intros v Hv Hdeps.
    destruct (In_dec Z.eq_dec v (P ++ [nid])) as [Hin|Hnin]; [left; exact Hin|right].
    assert (HvP : ~ In v P) by (intros H; apply Hnin, in_or_app; auto).
    assert (Hvn : v <> nid) by (intros ->; apply Hnin, in_or_app; right; left; auto).
    destruct (In_dec Z.eq_dec nid (deps_of l v)) as [Hd|Hd].
    + apply in_or_app. right. apply Hadd.
      rewrite (Hind v Hv), (Hcnt v Hv), (cnt_notin_snoc P nid (deps_of l v) HnP).
      apply cnt_notin_zero in Hdeps. rewrite Hdeps.
      apply (count_occ_In Z.eq_dec) in Hd. lia.
    + assert (Hsub : incl (deps_of l v) P).
      { intros x Hx. destruct (in_app_or _ _ _ (Hdeps x Hx)) as [H|[<-|[]]]; [exact H|contradiction]. }
      destruct (Hcl v Hv Hsub) as [H|[H|H]]; [contradiction|congruence|].
      apply in_or_app. left. exact H.
  - apply topo_ok_snoc; [exact Htop|]. apply Hq. left. reflexivity.
Qed.

Lemma kahn_inv_bound res q indeg :
  kahn_inv l res q indeg -> (List.length res + List.length q <= List.length l)%nat.
Proof.
  intros [_ [Hnd [Hinc _]]].
  pose proof (NoDup_incl_length Hnd Hinc) as H.
  rewrite length_app, !length_map in H. exact H.
Qed.

Lemma kahn_run g (Hg : forall u, g u = succ_list l u) : forall fuel q indeg res,
  kahn_inv l res q indeg -> (List.length l < List.length res + fuel)%nat ->
  exists res' indeg', kahn fuel (id_map l) g q indeg res = Ok res' /\ kahn_inv l res' [] indeg'.
Proof.
  induction fuel as [|f IH]; intros q indeg res Hinv Hf.
  - pose proof (kahn_inv_bound _ _ _ Hinv). lia.
  - simpl. destruct q as [|nid q'].
    + exists res, indeg. auto.
    + assert (Hid : In nid (map sq_id l))
        by (destruct Hinv as [_ [_ [Hinc _]]]; apply Hinc, in_or_app; right; left; auto).
      destruct (id_map_in l nid Hid) as [sq Hsq]. rewrite Hsq.
      destruct (relax_spec (g nid) indeg q') as [Hi [added [Hq [Hnda Hadd]]]].
      destruct (relax (g nid) indeg q') as [i' q''] eqn:Hr. simpl in Hi, Hq. subst q''.
      rewrite Hg in Hi, Hadd.
      apply IH.
      * apply (kahn_inv_step res nid q' indeg sq i' added); auto.
      * rewrite length_app. simpl. lia.
Qed.

(** Once the queue is empty, every id whose dependencies were all emitted
    has been emitted; on an acyclic graph that is every id. *)
Lemma kahn_complete res indeg :
  (forall v, ~ clos_trans Z (dep_edge l) v v) ->
  kahn_inv l res [] indeg -> incl (map sq_id l) (map sq_id res).
Proof.
  intros Hacyc Hinv. destruct Hinv as [_ [_ [_ [_ [_ [Hcl _]]]]]].
  set (P := map sq_id res) in *.
  intros v Hv. destruct (In_dec Z.eq_dec v P) as [H|Hn]; [exact H|exfalso].
  set (U := fun x => In x (map sq_id l) /\ ~ In x P).
  assert (Hstep : forall x, U x -> exists d, U d /\ dep_edge l d x).
  { intros x [Hx Hxn].
    destruct (cnt_notin P (deps_of l x)) as [|k] eqn:Hc.
    - apply cnt_notin_zero in Hc. destruct (Hcl x Hx Hc) as [H|[]]. contradiction.
    - unfold cnt_notin in Hc.
      destruct (filter (fun d => negb (memZ d P)) (deps_of l x)) as [|d ds] eqn:Hfl;
        [discriminate|].
      assert (Hd : In d (filter (fun d => negb (memZ d P)) (deps_of l x))) by (rewrite Hfl; left; auto).
      apply filter_In in Hd as [Hd Hdn].
      exists d. split; [split|].
      + apply deps_of_edge in Hd as [sq [Hsq [_ Hdd]]]. eapply Hvalid; eauto.
      + intros H. apply memZ_In in H. rewrite H in Hdn. discriminate.
      + apply deps_of_edge. exact Hd. }
  destruct (stuck_cycle (dep_edge l) (map sq_id l) U (fun x Hx => proj1 Hx) Hstep v (conj Hv Hn))
    as [w Hw].
  exact (Hacyc w Hw).
Qed.

(** An order satisfying [topo_ok] that holds every id rules out a cycle. *)
Lemma kahn_sound_acyclic res indeg :
  kahn_inv l res [] indeg -> incl (map sq_id l) (map sq_id res) ->
  forall v, ~ clos_trans Z (dep_edge l) v v.
Proof.
  intros [_ [Hnd [_ [_ [_ [_ Htop]]]]]] Hall.
  rewrite app_nil_r in Hnd. set (P := map sq_id res) in *.
  assert (Hedge : forall d v, dep_edge l d v -> (idx P d < idx P v)%nat).
  { intros d v [sq [Hsq [<- Hd]]].
    assert (Hv : In (sq_id sq) P) by (apply Hall, in_map; exact Hsq).
    apply in_split in Hv as [pre [post Hpp]].
    assert (Hdp : In d pre) by (apply (Htop pre (sq_id sq) post Hpp); rewrite deps_of_in; auto).
    rewrite Hpp. rewrite idx_at.
    - apply idx_lt. exact Hdp.
    - rewrite Hpp in Hnd. apply NoDup_remove_2 in Hnd. intros H. apply Hnd, in_or_app. auto. }
  assert (Htr : forall a b, clos_trans Z (dep_edge l) a b -> (idx P a < idx P b)%nat).
  { intros a b H. induction H as [a b H|a b c _ IH1 _ IH2]; [apply Hedge; exact H|lia]. }
  intros v H. specialize (Htr v v H). lia.
Qed.

Lemma kahn_init indeg :
  (forall v, indeg v = Z.of_nat (in_count l v)) ->
  kahn_inv l [] (filter (fun nid => (indeg nid =? 0)%Z) (indeg_keys l)) indeg.
Proof.
  intros Hi. unfold indeg_keys. rewrite dedup_ids_id; [|exact Huniq|simpl; tauto].
  assert (Hz : forall v, In v (map sq_id l) -> (indeg v =? 0)%Z = true -> deps_of l v = []).
  { intros v Hv H. apply Z.eqb_eq in H. rewrite Hi, in_count_deps in H; [|exact Huniq].
    destruct (deps_of l v); [reflexivity|simpl in H; lia]. }
  simpl. split; [constructor|]. split; [apply NoDup_filter; exact Huniq|].
  split; [intros x Hx; apply filter_In in Hx; tauto|].
  split; [intros v Hv; apply filter_In in Hv as [Hv H]; rewrite (Hz v Hv H); apply incl_nil_l|].
  split; [intros v Hv; rewrite Hi, in_count_deps, cnt_notin_nil; [reflexivity|exact Huniq]|].
  split.
  - intros v Hv Hd. right. apply filter_In. split; [exact Hv|].
    apply incl_l_nil in Hd. rewrite Hi, in_count_deps, Hd; [reflexivity|exact Huniq].
  - intros pre v post H. destruct pre; discriminate.
Qed.

(** The run of [topo_sort_subquestions] on well-formed input. *)
Lemma topo_sort_run :
  exists res indeg',
    kahn_inv l res [] indeg' /\
    (forall sq, In sq l -> is_root sq = true -> In sq res) /\
    (exists rest, res = filter is_root l ++ rest) /\
    topo_sort_subquestions l =
      (if Nat.eqb (List.length res) (List.length l) then Ok res else Err (ValueError cycle_msg)).
Proof.
  destruct (build_graph_ok (map sq_id l) l (fun _ => []) (fun _ => 0%Z)) as [g [indeg [Hb [Hg Hi]]]];
    [exact Hvalid|].
  simpl in Hg, Hi.
  assert (Hinv := kahn_init indeg Hi).
  destruct (kahn_run g Hg (S (List.length l)) _ _ [] Hinv) as [res [indeg' [Hk Hinv']]];
    [simpl; lia|].
  assert (Hroots : filter (fun nid => (indeg nid =? 0)%Z) (indeg_keys l) = map sq_id (filter is_root l)).
  { unfold indeg_keys. rewrite dedup_ids_id; [|exact Huniq|simpl; tauto].
    rewrite filter_map_swap. f_equal. apply filter_ext_in. intros sq Hsq.
    rewrite Hi, in_count_deps, deps_of_in; auto. unfold is_root.
    destruct (depends_on sq); reflexivity. }
  assert (Hfifo : exists rest, res = filter is_root l ++ rest).
  { rewrite Hroots in Hk. rewrite <- (app_nil_r (map sq_id (filter is_root l))) in Hk.
    apply (kahn_fifo (id_map l) g (filter is_root l) (S (List.length l)) [] indeg [] res); [|exact Hk].
    intros sq Hsq. apply filter_In in Hsq as [Hsq _].
    destruct (id_map_in l (sq_id sq) (in_map sq_id l sq Hsq)) as [x Hx].
    rewrite Hx. f_equal. apply id_map_some in Hx as [Hxl Hxid].
    apply (node_unique l); auto. }
  exists res, indeg'. split; [exact Hinv'|]. split; [|split; [exact Hfifo|]].
  - intros sq Hsq Hr. destruct Hfifo as [rest ->]. apply in_or_app. left.
    apply filter_In. auto.
  - unfold topo_sort_subquestions. rewrite Hb. cbn [rbind]. rewrite Hk. reflexivity.
Qed.

End Scheduler.

Lemma kahn_all_emitted l res indeg :
  NoDup (map sq_id l) -> kahn_inv l res [] indeg -> incl (map sq_id l) (map sq_id res) ->
  List.length res = List.length l.
Proof.
  intros Hu Hinv Hall. pose proof (kahn_inv_bound l res [] indeg Hinv) as Hb. simpl in Hb.
  pose proof (NoDup_incl_length Hu Hall) as H. rewrite !length_map in H. lia.
Qed.

Lemma topo_sort_graph_error l :
  (exists sq d, In sq l /\ In d (depends_on sq) /\ ~ In d (map sq_id l)) \/
  (NoDup (map sq_id l) /\ exists v, clos_trans Z (dep_edge l) v v) ->
  exists msg, topo_sort_subquestions l = Err (ValueError msg).
Proof.
  assert (Hinv_dep : (exists sq d, In sq l /\ In d (depends_on sq) /\ ~ In d (map sq_id l)) ->
                     exists msg, topo_sort_subquestions l = Err (ValueError msg)).
  { intros Hbad. destruct (build_graph_err (map sq_id l) l (fun _ => []) (fun _ => 0%Z) Hbad)
      as [msg Hb].
    exists msg. unfold topo_sort_subquestions. rewrite Hb. reflexivity. }
  intros [Hbad|[Hu [v Hv]]]; [exact (Hinv_dep Hbad)|].
  destruct (forallb (fun sq => forallb (fun d => memZ d (map sq_id l)) (depends_on sq)) l) eqn:Hall.
  - assert (Hvalid : forall sq d, In sq l -> In d (depends_on sq) -> In d (map sq_id l)).
    { intros sq d Hsq Hd. rewrite forallb_forall in Hall. specialize (Hall sq Hsq).
      rewrite forallb_forall in Hall. apply memZ_In, Hall, Hd. }
    destruct (topo_sort_run l Hu Hvalid) as [res [indeg' [Hinv [_ [_ Hrun]]]]].
    rewrite Hrun. destruct (Nat.eqb_spec (List.length res) (List.length l)) as [Heq|]; [|eauto].
    exfalso.
    assert (Hincl : incl (map sq_id l) (map sq_id res)).
    { destruct Hinv as [_ [Hnd [Hinc _]]]. rewrite app_nil_r in Hnd, Hinc.
      apply NoDup_length_incl; [exact Hnd|rewrite !length_map; lia|exact Hinc]. }
    exact (kahn_sound_acyclic l Hu res indeg' Hinv Hincl v Hv).
  - apply Hinv_dep. apply forallb_false_exists in Hall as [sq [Hsq Hf]].
    apply forallb_false_exists in Hf as [d [Hd Hm]].
    exists sq, d. split; [exact Hsq|]. split; [exact Hd|].
    intros H. apply memZ_In in H. congruence.
Qed.

Lemma clos_trans_first {A} (R : A -> A -> Prop) x y :
  clos_trans A R x y -> exists z, R x z.
Proof. induction 1; eauto. Qed.

(** C1 (as the code behaves): on well-formed input (unique ids, every
    dependency names a node) with an acyclic dependency graph, the scheduler
    returns a permutation of the input in which every node comes after all the
    nodes of its [depends_on]; the nodes without dependencies come first, in
    input order (the FIFO seed of Kahn's algorithm). *)
Theorem topo_sort_subquestions_order l :
  NoDup (map sq_id l) ->
  (forall sq d, In sq l -> In d (depends_on sq) -> In d (map sq_id l)) ->
  (forall v, ~ clos_trans Z (dep_edge l) v v) ->
  exists r, topo_sort_subquestions l = Ok r /\
    Permutation l r /\
    (forall pre sq post, r = pre ++ sq :: post -> incl (depends_on sq) (map sq_id pre)) /\
    (exists rest, r = filter is_root l ++ rest).
Proof.
  intros Hu Hvalid Hacyc.
  destruct (topo_sort_run l Hu Hvalid) as [res [indeg' [Hinv [_ [Hfifo Hrun]]]]].
  assert (Hall := kahn_complete l Hvalid res indeg' Hacyc Hinv).
  assert (Hlen := kahn_all_emitted l res indeg' Hu Hinv Hall).
  exists res. rewrite Hrun, Hlen, Nat.eqb_refl. split; [reflexivity|].
  destruct Hinv as [Hin [Hnd [_ [_ [_ [_ Htop]]]]]]. rewrite app_nil_r in Hnd.
  rewrite Forall_forall in Hin.
  split; [|split; [|exact Hfifo]].
  - apply NoDup_Permutation.
    + apply (NoDup_map_inv sq_id). exact Hu.
    + apply (NoDup_map_inv sq_id). exact Hnd.
    + intros sq. split; [|apply Hin].
      intros Hsq. assert (Hx : In (sq_id sq) (map sq_id res)) by (apply Hall, in_map; exact Hsq).
      apply in_map_iff in Hx as [y [Hy Hyr]].
      rewrite <- (node_unique l y sq Hu (Hin y Hyr) Hsq Hy). exact Hyr.
  - intros pre sq post Hr.
    assert (Hsq : In sq l) by (apply Hin; rewrite Hr; apply in_or_app; right; left; reflexivity).
    rewrite <- (deps_of_in l sq Hu Hsq).
    apply (Htop (map sq_id pre) (sq_id sq) (map sq_id post)).
    rewrite Hr, map_app. reflexivity.
Qed.

(** C1 counterexample: node 1 depends on node 2, nodes 2 and 3 have no
    dependencies. Nodes 1 and 3 have no ordering constraint between them
    (no dependency path either way) and node 1 precedes node 3 in the input,
    yet the scheduler emits node 3 before node 1. *)
Lemma topo_sort_subquestions_not_stable :
  let n1 := mk_subquestion 1 "q1" [2%Z] in
  let n2 := mk_subquestion 2 "q2" [] in
  let n3 := mk_subquestion 3 "q3" [] in
  topo_sort_subquestions [n1; n2; n3] = Ok [n2; n3; n1] /\
  ~ clos_trans Z (dep_edge [n1; n2; n3]) 1%Z 3%Z /\
  ~ clos_trans Z (dep_edge [n1; n2; n3]) 3%Z 1%Z.
Proof.
  intros n1 n2 n3.
  assert (He : forall d v, dep_edge [n1; n2; n3] d v -> d = 2%Z).
  { intros d v [sq [Hsq [_ Hd]]]. simpl in Hsq.
    destruct Hsq as [<-|[<-|[<-|[]]]]; simpl in Hd; try contradiction; destruct Hd as [H|[]]; subst; reflexivity. }
  split; [reflexivity|]. split.
  - intros H. destruct (clos_trans_first _ _ _ H) as [z Hz]. apply He in Hz. discriminate.
  - intros H. destruct (clos_trans_first _ _ _ H) as [z Hz]. apply He in Hz. discriminate.
Qed.

(** ** Scheduler: duplicate ids *)

Lemma dedup_ids_spec : forall xs seen x,
  In x (dedup_ids_aux seen xs) <-> In x xs /\ ~ In x seen.
Proof.
  induction xs as [|y xs IH]; simpl; intros seen x; [tauto|].
  destruct (memZ y seen) eqn:Hm.
  - rewrite IH. apply memZ_In in Hm. split; [tauto|].
    intros [[<-|H] Hn]; [contradiction|auto].
  - simpl. rewrite IH. rewrite in_app_iff. simpl.
    assert (Hy : ~ In y seen) by (intros H; apply memZ_In in H; congruence).
    split.
    + intros [<-|[H1 H2]]; [auto|]. split; [auto|tauto].
    + intros [[<-|H] Hn]; [auto|]. destruct (Z.eq_dec y x) as [->|Hne]; [auto|].
      right. split; [auto|]. intros [H'|[H'|[]]]; [contradiction|congruence].
Qed.

Lemma dedup_ids_nodup : forall xs seen, NoDup (dedup_ids_aux seen xs).
Proof.
  induction xs as [|y xs IH]; simpl; intros seen; [constructor|].
  destruct (memZ y seen); [apply IH|].
  constructor; [|apply IH]. rewrite dedup_ids_spec. rewrite in_app_iff. simpl. tauto.
Qed.

Lemma kahn_weak l g (Hg : forall u v, In v (g u) -> In v (map sq_id l)) :
  forall fuel q indeg res, kahn_winv l res q indeg ->
  match kahn fuel (id_map l) g q indeg res with
  | Ok r => NoDup (map sq_id r) /\ incl (map sq_id r) (map sq_id l)
  | Err e => e = ValueError cycle_msg
  end.
Proof.
  induction fuel as [|f IH]; intros q indeg res Hinv; simpl; [reflexivity|].
  destruct q as [|nid q'].
  - destruct Hinv as [Hnd [Hinc _]]. rewrite app_nil_r in Hnd, Hinc. auto.
  - destruct Hinv as [Hnd [Hinc [Hle Hpos]]].
    assert (Hid : In nid (map sq_id l)) by (apply Hinc, in_or_app; right; left; auto).
    destruct (id_map_in l nid Hid) as [sq Hsq]. rewrite Hsq.
    apply id_map_some in Hsq as [_ Hsqid].
    destruct (relax_spec (g nid) indeg q') as [Hi [added [Hq [Hnda Hadd]]]].
    destruct (relax (g nid) indeg q') as [i' q''] eqn:Hr. simpl in Hi, Hq. subst q''.
    apply IH.
    set (P := map sq_id res) in *.
    assert (HP' : map sq_id (res ++ [sq]) = P ++ [nid]) by (rewrite map_app; simpl; rewrite Hsqid; reflexivity).
    assert (Hre : (P ++ [nid]) ++ q' ++ added = (P ++ nid :: q') ++ added)
      by (rewrite <- !app_assoc; reflexivity).
    assert (Hai : forall v, In v added -> In v (map sq_id l)).
    { intros v Hv. apply Hadd in Hv. apply (Hg nid). apply (count_occ_In Z.eq_dec). lia. }
    unfold kahn_winv. rewrite HP', Hre.
    split; [|split; [|split]].
    + apply NoDup_app; [exact Hnd|exact Hnda|].
      intros v Hv Hva. apply Hadd in Hva. specialize (Hle v Hv). lia.
    + intros v Hv. apply in_app_or in Hv as [Hv|Hv]; auto.
    + intros v Hv. rewrite Hi. apply in_app_or in Hv as [Hv|Hv].
      * specialize (Hle v Hv). lia.
      * apply Hadd in Hv. lia.
    + intros v Hv Hn. rewrite Hi.
      assert (Hn1 : ~ In v (P ++ nid :: q')) by (intros H; apply Hn, in_or_app; auto).
      assert (Hn2 : ~ In v added) by (intros H; apply Hn, in_or_app; auto).
      specialize (Hpos v Hv Hn1). rewrite Hadd in Hn2. lia.
Qed.

Lemma topo_sort_dup_error l :
  ~ NoDup (map sq_id l) -> exists msg, topo_sort_subquestions l = Err (ValueError msg).
Proof.
  intros Hdup.
  destruct (forallb (fun sq => forallb (fun d => memZ d (map sq_id l)) (depends_on sq)) l) eqn:Hall.
  - assert (Hvalid : forall sq d, In sq l -> In d (depends_on sq) -> In d (map sq_id l)).
    { intros sq d Hsq Hd. rewrite forallb_forall in Hall. specialize (Hall sq Hsq).
      rewrite forallb_forall in Hall. apply memZ_In, Hall, Hd. }
    destruct (build_graph_ok (map sq_id l) l (fun _ => []) (fun _ => 0%Z) Hvalid)
      as [g [indeg [Hb [Hg Hi]]]].
    simpl in Hg, Hi.
    assert (Hinit : kahn_winv l [] (filter (fun nid => (indeg nid =? 0)%Z) (indeg_keys l)) indeg).
    { unfold kahn_winv, indeg_keys. simpl. split; [|split; [|split]].
      - apply NoDup_filter, dedup_ids_nodup.
      - intros x Hx. apply filter_In in Hx as [Hx _]. apply dedup_ids_spec in Hx. tauto.
      - intros v Hv. apply filter_In in Hv as [_ Hv]. apply Z.eqb_eq in Hv. lia.
      - intros v Hv Hn. rewrite Hi.
        destruct (in_count l v) eqn:Hc; [|lia]. exfalso. apply Hn, filter_In.
        split; [apply dedup_ids_spec; simpl; tauto|]. rewrite Hi, Hc. reflexivity. }
    assert (Hgl : forall u v, In v (g u) -> In v (map sq_id l))
      by (intros u v H; rewrite Hg in H; eapply succ_list_in; exact H).
    pose proof (kahn_weak l g Hgl (S (List.length l)) _ _ [] Hinit) as Hk.
    unfold topo_sort_subquestions. rewrite Hb. cbn [rbind].
    destruct (kahn (S (List.length l)) (id_map l) g _ indeg []) as [r|e].
    + cbn [rbind]. destruct (Nat.eqb_spec (List.length r) (List.length l)) as [Hl|]; [|exists cycle_msg; reflexivity].
      exfalso. apply Hdup. destruct Hk as [Hnd Hinc].
      apply (NoDup_incl_NoDup Hnd); [rewrite !length_map; lia|exact Hinc].
    + subst e. exists cycle_msg. reflexivity.
  - apply forallb_false_exists in Hall as [sq [Hsq Hf]].
    apply forallb_false_exists in Hf as [d [Hd Hm]].
    destruct (build_graph_err (map sq_id l) l (fun _ => []) (fun _ => 0%Z)) as [msg Hb].
    { exists sq, d. split; [exact Hsq|]. split; [exact Hd|].
      intros H. apply memZ_In in H. congruence. }
    exists msg. unfold topo_sort_subquestions. rewrite Hb. reflexivity.
Qed.

Lemma clos_trans_last {A} (R : A -> A -> Prop) x y :
  clos_trans A R x y -> exists z, R z y.
Proof. induction 1; eauto. Qed.

(** The two-node chain: node 2 depends on node 1. *)
Lemma chain_acyclic :
  forall v, ~ clos_trans Z (dep_edge [mk_subquestion 2 "b" [1%Z]; mk_subquestion 1 "a" []]) v v.
Proof.
  assert (He : forall d v, dep_edge [mk_subquestion 2 "b" [1%Z]; mk_subquestion 1 "a" []] d v ->
                 d = 1%Z /\ v = 2%Z).
  { intros d v [sq [Hsq [<- Hd]]]. simpl in Hsq.
    destruct Hsq as [<-|[<-|[]]]; simpl in Hd; [|contradiction].
    destruct Hd as [<-|[]]. auto. }
  intros v H. destruct (clos_trans_first _ _ _ H) as [z Hz].
  destruct (clos_trans_last _ _ _ H) as [w Hw].
  apply He in Hz. apply He in Hw. lia.
Qed.

(** Witness for C1 on the two-node chain. *)
Lemma topo_sort_subquestions_order_witness :
  exists r, topo_sort_subquestions [mk_subquestion 2 "b" [1%Z]; mk_subquestion 1 "a" []] = Ok r /\
    Permutation [mk_subquestion 2 "b" [1%Z]; mk_subquestion 1 "a" []] r /\
    (forall pre sq post, r = pre ++ sq :: post -> incl (depends_on sq) (map sq_id pre)) /\
    (exists rest, r = filter is_root [mk_subquestion 2 "b" [1%Z]; mk_subquestion 1 "a" []] ++ rest).
Proof.
  apply (topo_sort_subquestions_order [mk_subquestion 2 "b" [1%Z]; mk_subquestion 1 "a" []]).
  - simpl. constructor; [simpl; intros [H|[]]; discriminate|].
    constructor; [simpl; tauto|constructor].
  - intros sq d Hsq Hd. simpl in Hsq.
    destruct Hsq as [<-|[<-|[]]]; simpl in Hd; [|contradiction].
    destruct Hd as [<-|[]]. simpl. auto.
  - exact chain_acyclic.
Defined.

(** ** C2: graph errors abort the run *)

(** C2: if some node's [depends_on] names an id that no node has, or the
    dependency graph has a cycle, then [answer] raises [ValueError] from
    [topo_sort_subquestions] and the agent's state is left as it was: no
    tool has been called, no answer record exists and the history is
    unchanged. *)
Theorem answer_graph_error E now query subs st :
  (exists sq d, In sq subs /\ In d (depends_on sq) /\ ~ In d (map sq_id subs)) \/
  (exists v, clos_trans Z (dep_edge subs) v v) ->
  exists msg, answer E now query subs st = (Err (ValueError msg), st).
Proof.
  intros H.
  assert (Ht : exists msg, topo_sort_subquestions subs = Err (ValueError msg)).
  { destruct H as [Hbad|Hcyc].
    - apply topo_sort_graph_error. left. exact Hbad.
    - destruct (ListDec.NoDup_dec Z.eq_dec (map sq_id subs)) as [Hnd|Hnd].
      + apply topo_sort_graph_error. right. auto.
      + apply topo_sort_dup_error. exact Hnd. }
  destruct Ht as [msg Ht]. exists msg.
  unfold answer, bind, lift. rewrite Ht. reflexivity.
Qed.

(** Witness for C2: the cycle 1 -> 2 -> 1. *)
Lemma answer_graph_error_witness :
  exists msg, answer sample_env "2025-01-01T00:00:00" "q"
    [mk_subquestion 1 "a" [2%Z]; mk_subquestion 2 "b" [1%Z]] init_state
    = (Err (ValueError msg), init_state).
Proof.
  apply answer_graph_error. right. exists 1%Z.
  apply (t_trans Z _ 1%Z 2%Z 1%Z); apply t_step.
  - exists (mk_subquestion 2 "b" [1%Z]). simpl. auto.
  - exists (mk_subquestion 1 "a" [2%Z]). simpl. auto.
Defined.

(** ** Placeholder resolution *)

Lemma str_app_assoc (a b c : string) : ((a ++ b) ++ c)%string = (a ++ b ++ c)%string.
Proof. induction a as [|x a IH]; simpl; [reflexivity|rewrite IH; reflexivity]. Qed.

Lemma resolve_segments_app answered s1 s2 :
  resolve_segments answered (s1 ++ s2) =
  rbind (resolve_segments answered s1) (fun t1 =>
  rbind (resolve_segments answered s2) (fun t2 =>
    Ok ((fst t1 ++ fst t2)%string, snd t1 ++ snd t2))).
Proof.
  induction s1 as [|[c|raw key] s1 IH]; simpl.
  - destruct (resolve_segments answered s2) as [[a b]|e]; reflexivity.
  - rewrite IH. destruct (resolve_segments answered s1) as [[a b]|e]; simpl; [|reflexivity].
    destruct (resolve_segments answered s2) as [[a' b']|e]; reflexivity.
  - destruct (resolve_token answered key) as [o|e]; simpl; [|reflexivity].
    rewrite IH. destruct (resolve_segments answered s1) as [[a b]|e]; simpl; [|reflexivity].
    destruct (resolve_segments answered s2) as [[a' b']|e]; simpl; [|destruct o; reflexivity].
    destruct o; simpl; rewrite ?str_app_assoc; reflexivity.
Qed.

Lemma resolve_token_no_record answered key f ds :
  match_from_q key = Some (f, ds) -> zdict_get answered (py_int_of_digits ds) = None ->
  resolve_token answered key = Ok None.
Proof. intros Hm Hz. unfold resolve_token. rewrite Hm, Hz. reflexivity. Qed.

(** C3: with a record for id 1 whose [extracted_data] is [{"ticker": "FPT"}],
    ["Price of {{TICKER_FROM_Q1}}"] resolves to ["Price of FPT"] with no
    missing key; with no record for id 1 the text is unchanged and the
    missing list is [["TICKER_FROM_Q1"]]; and in any text, a token
    [{{FIELD_FROM_Qn}}] with no record for id [n] stays in place verbatim
    and its key takes its place in the missing list, between the keys
    missing before it and those missing after it. *)
Theorem resolve_placeholders_roundtrip :
  (forall answered rec,
     zdict_get answered 1 = Some rec ->
     dict_get rec "extracted_data" = PDict [("ticker", PStr "FPT")] ->
     resolve_placeholders "Price of {{TICKER_FROM_Q1}}" answered = Ok ("Price of FPT", [])) /\
  (forall answered,
     zdict_get answered 1 = None ->
     resolve_placeholders "Price of {{TICKER_FROM_Q1}}" answered
       = Ok ("Price of {{TICKER_FROM_Q1}}", ["TICKER_FROM_Q1"])) /\
  (forall t answered pre raw key post f ds s m,
     segments t = pre ++ Tok raw key :: post ->
     match_from_q key = Some (f, ds) ->
     zdict_get answered (py_int_of_digits ds) = None ->
     resolve_placeholders t answered = Ok (s, m) ->
     exists s1 s2 m1 m2,
       s = (s1 ++ raw ++ s2)%string /\ m = m1 ++ key :: m2 /\
       resolve_segments answered pre = Ok (s1, m1) /\
       resolve_segments answered post = Ok (s2, m2)).
Proof.
  split; [|split].
  - intros answered rec Hz Hed.
    unfold resolve_placeholders.
    change (segments "Price of {{TICKER_FROM_Q1}}")
      with (map Lit (list_ascii_of_string "Price of ") ++ [Tok "{{TICKER_FROM_Q1}}" "TICKER_FROM_Q1"]).
    rewrite resolve_segments_app. simpl resolve_segments at 1.
    cbn [rbind fst snd]. simpl resolve_segments.
    unfold resolve_token.
    change (match_from_q "TICKER_FROM_Q1") with (Some ("TICKER", "1")).
    cbv beta iota. replace (py_int_of_digits "1") with 1%Z by reflexivity. rewrite Hz.
    destruct rec as [|kv rec']; [discriminate|].
    cbn [truthy negb]. unfold extract_value. rewrite Hed. reflexivity.
  - intros answered Hz. unfold resolve_placeholders.
    change (segments "Price of {{TICKER_FROM_Q1}}")
      with (map Lit (list_ascii_of_string "Price of ") ++ [Tok "{{TICKER_FROM_Q1}}" "TICKER_FROM_Q1"]).
    rewrite resolve_segments_app. simpl resolve_segments.
    rewrite (resolve_token_no_record answered "TICKER_FROM_Q1" "TICKER" "1");
      [reflexivity|reflexivity|exact Hz].
  - intros t answered pre raw key post f ds s m Hseg Hm Hz Hr.
    unfold resolve_placeholders in Hr. rewrite Hseg, resolve_segments_app in Hr.
    simpl resolve_segments in Hr at 2.
    rewrite (resolve_token_no_record answered key f ds Hm Hz) in Hr.
    destruct (resolve_segments answered pre) as [[s1 m1]|e]; [|discriminate].
    cbn [rbind] in Hr.
    destruct (resolve_segments answered post) as [[s2 m2]|e]; [|discriminate].
    cbn [rbind fst snd] in Hr. injection Hr as <- <-.
    exists s1, s2, m1, m2. auto.
Qed.

(** Witness for C3: a text with a [{{B_FROM_Q2}}] token and no records. *)
Lemma resolve_placeholders_roundtrip_witness :
  exists s1 s2 m1 m2,
    "a {{B_FROM_Q2}} c" = (s1 ++ "{{B_FROM_Q2}}" ++ s2)%string /\ ["B_FROM_Q2"] = m1 ++ "B_FROM_Q2" :: m2 /\
    resolve_segments [] (map Lit (list_ascii_of_string "a ")) = Ok (s1, m1) /\
    resolve_segments [] (map Lit (list_ascii_of_string " c")) = Ok (s2, m2).
Proof.
  apply (proj2 (proj2 resolve_placeholders_roundtrip) "a {{B_FROM_Q2}} c" []
           (map Lit (list_ascii_of_string "a ")) "{{B_FROM_Q2}}" "B_FROM_Q2"
           (map Lit (list_ascii_of_string " c")) "B" "2"); reflexivity.
Defined.

(** C4 (the colon heuristic raises): the first sub-question is answered by
    the model with the text ["Ticker:"] (no tool applies), and the second
    one asks for [{{TICKER_FROM_Q1}}]. Resolving it takes the last
    [":"]-separated part of ["Ticker:"], which is empty, and
    [parts[-1].strip().split()[0]] raises [IndexError]; the exception is not
    caught and the whole [answer] run fails. *)
Theorem answer_colon_heuristic_crash :
  resolve_placeholders "Price of {{TICKER_FROM_Q1}}"
    [(1%Z, mk_record 1 (PStr "Ticker:") [] [])] = Err (IndexError "list index out of range") /\
  fst (answer (mk_env (fun _ => None) None (fun _ => mk_gen_out (Some "Ticker:") PNone)
                      (fun _ _ => TReturn PNone) (fun _ => None))
              "2025-01-01T00:00:00" "What is the price of the stock?"
              [mk_subquestion 1 "Which ticker?" []; mk_subquestion 2 "Price of {{TICKER_FROM_Q1}}" [1%Z]]
              init_state)
  = Err (IndexError "list index out of range").
Proof. split; vm_compute; reflexivity. Qed.

Lemma dict_get_set_other d k k' v : k' <> k -> dict_get (dict_set d k v) k' = dict_get d k'.
Proof.
  intros Hne. induction d as [|[k0 v0] d IH]; simpl.
  - destruct (String.eqb_spec k k'); [congruence|reflexivity].
  - destruct (String.eqb_spec k0 k) as [->|Hk]; simpl.
    + destruct (String.eqb_spec k k'); [congruence|reflexivity].
    + destruct (String.eqb_spec k0 k'); [reflexivity|exact IH].
Qed.

Lemma dict_get_set_same d k v : dict_get (dict_set d k v) k = v.
Proof.
  induction d as [|[k0 v0] d IH]; simpl.
  - rewrite String.eqb_refl. reflexivity.
  - destruct (String.eqb_spec k0 k) as [->|Hk]; simpl.
    + rewrite String.eqb_refl. reflexivity.
    + destruct (String.eqb_spec k0 k); [congruence|exact IH].
Qed.

(** C10. The two dictionary lookups of [repl] treat a falsy value
    differently. In [extracted_data] (agent.py:71) the chain
    [ed.get(field_name.lower()) or ed.get(field_name)] is kept as it is,
    so a falsy value under the verbatim key, such as [""] or [0], is not
    skipped: it replaces the token as [str(value)], and the answer text
    (here starting with ["FPT"]) is never consulted. In a dict [answer]
    (agent.py:74-76) the same chain is followed by [if v:], so the same
    falsy values are dropped and the token is reported missing. *)
Theorem resolve_placeholders_falsy_inconsistent :
  resolve_placeholders "Price of {{TICKER_FROM_Q1}}"
    [(1%Z, mk_record 1 (PStr "FPT is listed on HOSE") [] [("TICKER", PStr EmptyString)])]
  = Ok ("Price of ", []) /\
  resolve_placeholders "Price of {{TICKER_FROM_Q1}}"
    [(1%Z, mk_record 1 (PStr "FPT is listed on HOSE") [] [("TICKER", PInt 0)])]
  = Ok ("Price of 0", []) /\
  resolve_placeholders "Price of {{TICKER_FROM_Q1}}"
    [(1%Z, mk_record 1 (PDict [("TICKER", PStr EmptyString)]) [] [])]
  = Ok ("Price of {{TICKER_FROM_Q1}}", ["TICKER_FROM_Q1"]) /\
  resolve_placeholders "Price of {{TICKER_FROM_Q1}}"
    [(1%Z, mk_record 1 (PDict [("TICKER", PInt 0)]) [] [])]
  = Ok ("Price of {{TICKER_FROM_Q1}}", ["TICKER_FROM_Q1"]).
Proof. split; [|split; [|split]]; vm_compute; reflexivity. Qed.

(** ** The per-node loop of [answer] *)

Lemma process_all_cons E now query sq rest st :
  process_all E now query (sq :: rest) st =
  match process_node E now query sq st with
  | (Ok _, st') => process_all E now query rest st'
  | (Err e, st') => (Err e, st')
  end.
Proof. reflexivity. Qed.

(** C5 (as the code behaves): when resolving a node's text returns with a
    non-empty [missing] list, the node's record is
    [{"id": id, "answer": "SKIP: missing placeholders [...]", "used_tools": [],
    "extracted_data": {}}] (the repr of the missing keys), no tool is called,
    the history is untouched, and the loop goes on with the next nodes. *)
Theorem process_all_skip E now query sq rest st resolved missing :
  resolve_placeholders (question sq) (answered st) = Ok (resolved, missing) ->
  missing <> [] ->
  process_all E now query (sq :: rest) st =
  process_all E now query rest
    (mk_state (history st) (zdict_set (answered st) (sq_id sq) (skip_record (sq_id sq) missing))
              (calls st)).
Proof.
  intros Hr Hm. rewrite process_all_cons.
  unfold process_node, bind, get_state, lift. cbv beta iota zeta. rewrite Hr.
  destruct missing as [|k ks]; [congruence|]. reflexivity.
Qed.

(** Witness for C5: a node that needs the answer of node 1, before it. *)
Lemma process_all_skip_witness :
  process_all sample_env "2025-01-01T00:00:00" "q"
    [mk_subquestion 2 "Price of {{TICKER_FROM_Q1}}" [1%Z]] init_state =
  process_all sample_env "2025-01-01T00:00:00" "q" []
    (mk_state [] [(2%Z, skip_record 2 ["TICKER_FROM_Q1"])] []).
Proof.
  apply (process_all_skip sample_env "2025-01-01T00:00:00" "q"
           (mk_subquestion 2 "Price of {{TICKER_FROM_Q1}}" [1%Z]) [] init_state
           "Price of {{TICKER_FROM_Q1}}" ["TICKER_FROM_Q1"]); [vm_compute; reflexivity|discriminate].
Defined.

(** C5 counterexample. The record of a skipped node has no [status] key:
    its text is the ["SKIP: ..."] message, which carries the repr of the
    list of missing keys. *)
Lemma process_all_skip_not_status :
  dict_mem (skip_record 2 ["TICKER_FROM_Q1"]) "status" = false /\
  dict_get (skip_record 2 ["TICKER_FROM_Q1"]) "answer"
    = PStr "SKIP: missing placeholders ['TICKER_FROM_Q1']".
Proof. split; vm_compute; reflexivity. Qed.

(** C6 (as the code behaves). Take a node whose text resolves with no
    missing key, for which [_search_tools] offers tools and the model's
    reply selects function [f] (named [name]) with arguments [args]. If the
    call raises, the node's record is
    [{"id": id, "answer": "ERROR executing tool <name>: <message>",
    "used_tools": [name], "extracted_data": {}}], the call is on the trace and
    the loop goes on with the next nodes. If it returns [v], the record lists
    [name] and holds [v] when [v] is a dict, [{"result": v}] otherwise.
    Once the loop has gone through all the nodes, [answer] returns its
    report with the records, and the tool calls are those of the loop. *)
Theorem process_all_tool_call E now query sq rest st resolved tool0 tools f name args :
  resolve_placeholders (question sq) (answered st) = Ok (resolved, []) ->
  search_tools E resolved = tool0 :: tools ->
  plan_call E (oracle E (ReqSub (history st) now query (sq_id sq) resolved
                           (node_deps (answered st) sq) (Some (tool0 :: tools)))) tool0
    = Ok (Call f name args) ->
  (forall msg, tool_impl E f args = TRaise msg ->
     process_all E now query (sq :: rest) st =
     process_all E now query rest
       (mk_state (history st) (zdict_set (answered st) (sq_id sq) (error_record (sq_id sq) name msg))
                 (calls st ++ [(f, args)]))) /\
  (forall v, tool_impl E f args = TReturn v ->
     exists txt,
       process_all E now query (sq :: rest) st =
       process_all E now query rest
         (mk_state (history st)
                   (zdict_set (answered st) (sq_id sq) (mk_record (sq_id sq) (PStr txt) [name] (wrap_result v)))
                   (calls st ++ [(f, args)])) /\
       wrap_result v = match v with PDict d => d | _ => [("result", v)] end) /\
  (forall subs ordered st1,
     topo_sort_subquestions subs = Ok ordered ->
     process_all E now query ordered (mk_state (history st) [] (calls st)) = (Ok tt, st1) ->
     exists out st2,
       answer E now query subs st = (Ok out, st2) /\
       answered_subquestions out = map snd (answered st1) /\
       calls st2 = calls st1).
Proof.
  intros Hr Hs Hp.
  assert (Hnode : process_node E now query sq st =
                  run_tool E (history st) now query (sq_id sq) resolved (node_deps (answered st) sq)
                    f name args st).
  { unfold process_node, bind, get_state, lift. cbv beta iota zeta. rewrite Hr.
    cbv beta iota. rewrite Hs. rewrite Hp. reflexivity. }
  split; [|split].
  - intros msg Ht. rewrite process_all_cons, Hnode.
    unfold run_tool, bind, call_tool. rewrite Ht. reflexivity.
  - intros v Ht. rewrite process_all_cons, Hnode.
    unfold run_tool, bind, call_tool. rewrite Ht.
    eexists. split; [reflexivity|]. destruct v; reflexivity.
  - intros subs ordered st1 Ht Hl.
    unfold answer, bind at 1, lift. rewrite Ht.
    unfold bind at 1, set_answered. unfold bind at 1. rewrite Hl.
    cbv [finish bind get_state set_history ret].
    eexists. eexists. split; [reflexivity|]. split; reflexivity.
Qed.

(** Witness for C6: in [sample_env] the text mentions a price, so
    [get_stock_price] is offered and chosen; its call raises. *)
Lemma process_all_tool_call_witness :
  process_all sample_env "2025-01-01T00:00:00" "q" [mk_subquestion 1 "Price of FPT" []] init_state =
  process_all sample_env "2025-01-01T00:00:00" "q" []
    (mk_state [] [(1%Z, error_record 1 "get_stock_price" "connection refused")]
              [(price_tool, [("ticker", PStr "FPT")])]).
Proof.
  apply (proj1 (process_all_tool_call sample_env "2025-01-01T00:00:00" "q"
                  (mk_subquestion 1 "Price of FPT" []) [] init_state "Price of FPT" price_tool []
                  price_tool "get_stock_price" [("ticker", PStr "FPT")]
                  ltac:(vm_compute; reflexivity) ltac:(vm_compute; reflexivity)
                  ltac:(vm_compute; reflexivity)) "connection refused").
  reflexivity.
Defined.

(** ** Argument normalisation *)

Lemma mem_str_In x l : mem_str x l = true <-> In x l.
Proof.
  unfold mem_str. rewrite existsb_exists. split.
  - intros [y [Hy He]]. apply String.eqb_eq in He. subst. exact Hy.
  - intros H. exists x. split; [exact H|apply String.eqb_refl].
Qed.

Lemma mem_str_notin x l : ~ In x l -> mem_str x l = false.
Proof. intros H. destruct (mem_str x l) eqn:E; [apply mem_str_In in E; contradiction|reflexivity]. Qed.

Lemma dict_set_keys d k v x : In x (map fst (dict_set d k v)) -> x = k \/ In x (map fst d).
Proof.
  induction d as [|[k' v'] r IH]; simpl.
  - intros [H|[]]. left; symmetry; exact H.
  - destruct (String.eqb_spec k' k) as [->|Hne]; simpl.
    + intros [H|H]; [left; symmetry; exact H|right; right; exact H].
    + intros [H|H]; [right; left; exact H|]. destruct (IH H); [left|right; right]; assumption.
Qed.

Lemma alias_step_keys params m kv x :
  In x (map fst (alias_step params m kv)) -> In x params \/ In x (map fst m).
Proof.
  destruct kv as [k v]. unfold alias_step.
  destruct (dict_mem m k); [right; exact H|].
  destruct (str_lookup alias_map (py_lower k)) as [t|] eqn:Hl.
  - destruct (mem_str t params) eqn:Hm.
    + intros H. destruct (dict_set_keys _ _ _ _ H) as [->|H']; [left; apply mem_str_In, Hm|right; exact H'].
    + destruct (find_param_ci params (py_lower k)) as [p|] eqn:Hp.
      * intros H. destruct (dict_set_keys _ _ _ _ H) as [->|H']; [left|right; exact H'].
        apply find_some in Hp. tauto.
      * destruct (find_alias_ci params (py_lower k)) as [t'|] eqn:Ha; [|intros H; right; exact H].
        intros H. destruct (dict_set_keys _ _ _ _ H) as [->|H']; [left|right; exact H'].
        unfold find_alias_ci in Ha. destruct (find _ alias_map) as [[a t'']|] eqn:Hf; [|discriminate].
        simpl in Ha. injection Ha as <-. apply find_some in Hf as [_ Hf].
        apply andb_true_iff in Hf as [_ Hf]. apply mem_str_In, Hf.
  - destruct (find_param_ci params (py_lower k)) as [p|] eqn:Hp.
    + intros H. destruct (dict_set_keys _ _ _ _ H) as [->|H']; [left|right; exact H'].
      apply find_some in Hp. tauto.
    + destruct (find_alias_ci params (py_lower k)) as [t'|] eqn:Ha; [|intros H; right; exact H].
      intros H. destruct (dict_set_keys _ _ _ _ H) as [->|H']; [left|right; exact H'].
      unfold find_alias_ci in Ha. destruct (find _ alias_map) as [[a t'']|] eqn:Hf; [|discriminate].
      simpl in Ha. injection Ha as <-. apply find_some in Hf as [_ Hf].
      apply andb_true_iff in Hf as [_ Hf]. apply mem_str_In, Hf.
Qed.

Lemma alias_step_eq params m k v :
  alias_step params m (k, v) =
  if dict_mem m k then m else
  match alias_target params k with Some t => dict_set m t v | None => m end.
Proof.
  unfold alias_step, alias_target. destruct (dict_mem m k); [reflexivity|].
  destruct (str_lookup alias_map (py_lower k)) as [t|]; [destruct (mem_str t params)|];
    [reflexivity| |]; destruct (find_param_ci params (py_lower k)); [reflexivity| |reflexivity|];
    destruct (find_alias_ci params (py_lower k)); reflexivity.
Qed.

Lemma dict_mem_In d x : dict_mem d x = true <-> In x (map fst d).
Proof.
  induction d as [|[k v] r IH]; simpl; [split; [discriminate|intros []]|].
  rewrite orb_true_iff, IH, String.eqb_eq. tauto.
Qed.

Lemma dict_mem_set d k v x : dict_mem d x = true -> dict_mem (dict_set d k v) x = true.
Proof.
  induction d as [|[k0 v0] r IH]; simpl; [discriminate|].
  destruct (String.eqb_spec k0 k); simpl; [tauto|].
  rewrite !orb_true_iff. intuition.
Qed.

Lemma dict_mem_set_same d k v : dict_mem (dict_set d k v) k = true.
Proof.
  induction d as [|[k0 v0] r IH]; simpl; [rewrite String.eqb_refl; reflexivity|].
  destruct (String.eqb_spec k0 k) as [->|]; simpl; [rewrite String.eqb_refl; reflexivity|].
  rewrite IH. apply orb_true_r.
Qed.

Lemma alias_step_mem params m kv x :
  dict_mem m x = true -> dict_mem (alias_step params m kv) x = true.
Proof.
  destruct kv as [k v]. rewrite alias_step_eq. intros H.
  destruct (dict_mem m k); [exact H|]. destruct (alias_target params k); [apply dict_mem_set|]; exact H.
Qed.

Lemma alias_pass_mem params : forall l m x,
  dict_mem m x = true -> dict_mem (fold_left (alias_step params) l m) x = true.
Proof.
  induction l as [|kv r IH]; cbn [fold_left]; intros m x H; [exact H|]. apply IH, alias_step_mem, H.
Qed.

Lemma alias_pass_keys params : forall l m,
  (forall y, In y (map fst m) -> In y params) ->
  forall y, In y (map fst (fold_left (alias_step params) l m)) -> In y params.
Proof.
  induction l as [|kv r IH]; cbn [fold_left]; intros m Hm; [exact Hm|].
  apply IH. intros y Hy. destruct (alias_step_keys _ _ _ _ Hy); [assumption|apply Hm; assumption].
Qed.

(** The first loop of [_map_aliases_to_signature]. *)
Lemma direct_pass_spec params : forall (args m : pydict),
  (forall y, In y (map fst m) -> In y params) ->
  (forall y, In y (map fst (fold_left (fun m kv => if mem_str (fst kv) params
                                      then dict_set m (fst kv) (snd kv) else m) args m)) -> In y params) /\
  (forall k' v', In (k', v') args -> In k' params ->
     dict_mem (fold_left (fun m kv => if mem_str (fst kv) params
                                      then dict_set m (fst kv) (snd kv) else m) args m) k' = true).
Proof.
  induction args as [|[k0 v0] r IH]; simpl; intros m Hm.
  - split; [exact Hm|intros k' v' []].
  - destruct (mem_str k0 params) eqn:Hk.
    + assert (Hm' : forall y, In y (map fst (dict_set m k0 v0)) -> In y params).
      { intros y Hy. destruct (dict_set_keys _ _ _ _ Hy) as [->|H]; [apply mem_str_In, Hk|apply Hm, H]. }
      destruct (IH _ Hm') as [H1 H2]. split; [exact H1|].
      intros k' v' [Heq|Hin] Hp; [|exact (H2 k' v' Hin Hp)].
      injection Heq as <- <-.
      assert (Hgen : forall l m0, dict_mem m0 k0 = true ->
                dict_mem (fold_left (fun m kv => if mem_str (fst kv) params
                                      then dict_set m (fst kv) (snd kv) else m) l m0) k0 = true).
      { induction l as [|kv l' IHl]; simpl; intros m0 H0; [exact H0|].
        apply IHl. destruct (mem_str (fst kv) params); [apply dict_mem_set|]; exact H0. }
      apply Hgen, dict_mem_set_same.
    + destruct (IH _ Hm) as [H1 H2]. split; [exact H1|].
      intros k' v' [Heq|Hin] Hp; [|exact (H2 k' v' Hin Hp)].
      injection Heq as <- <-. apply mem_str_In in Hp. congruence.
Qed.

Lemma alias_pass_post params t v : forall (post m : pydict),
  dict_mem m t = true -> dict_get m t = v ->
  (forall k' v', In (k', v') post -> In k' params -> dict_mem m k' = true) ->
  (forall k' v', In (k', v') post -> ~ In k' params -> alias_target params k' <> Some t) ->
  dict_mem (fold_left (alias_step params) post m) t = true /\
  dict_get (fold_left (alias_step params) post m) t = v.
Proof.
  induction post as [|[k' v'] r IH]; cbn [fold_left]; intros m Hmem Hget Hp Ha; [split; assumption|].
  apply IH.
  - apply alias_step_mem, Hmem.
  - rewrite alias_step_eq. destruct (dict_mem m k') eqn:Hk'; [exact Hget|].
    assert (Hnp : ~ In k' params).
    { intros H. rewrite (Hp k' v' (or_introl eq_refl) H) in Hk'. discriminate. }
    pose proof (Ha k' v' (or_introl eq_refl) Hnp) as Hne.
    destruct (alias_target params k') as [t'|]; [|exact Hget].
    rewrite dict_get_set_other; [exact Hget|]. intros ->. apply Hne. reflexivity.
  - intros k1 v1 Hin Hpk. apply alias_step_mem. exact (Hp k1 v1 (or_intror Hin) Hpk).
  - intros k1 v1 Hin. exact (Ha k1 v1 (or_intror Hin)).
Qed.

(** An argument whose key is an alias of the parameter [t] ends up bound
    to [t], whatever the other arguments are, as long as no other
    argument that is not itself a parameter is also bound to [t] by the
    second loop. *)
Lemma map_aliases_alias_any f args k v t :
  NoDup (map fst args) -> In (k, v) args -> ~ In k (param_names f) ->
  str_lookup alias_map (py_lower k) = Some t -> In t (param_names f) ->
  (forall k' v', In (k', v') args -> k' <> k -> ~ In k' (param_names f) ->
     alias_target (param_names f) k' <> Some t) ->
  exists m, map_aliases_to_signature args f = Ok m /\ In t (map fst m) /\ dict_get m t = v.
Proof.
  intros Hnd Hin Hk Hl Ht Hoth.
  set (params := param_names f) in *.
  destruct (in_split _ _ Hin) as [pre [post Hargs]].
  set (m0 := fold_left (fun m kv => if mem_str (fst kv) params
                                    then dict_set m (fst kv) (snd kv) else m) args []).
  destruct (direct_pass_spec params args [] (fun y (H : In y []) => match H with end)) as [Hk0 Hd0].
  fold m0 in Hk0, Hd0.
  assert (Hcore : map_core args params =
                  fold_left (alias_step params) post (alias_step params (fold_left (alias_step params) pre m0) (k, v))).
  { unfold map_core. fold m0. rewrite Hargs. rewrite fold_left_app. reflexivity. }
  set (m1 := fold_left (alias_step params) pre m0) in Hcore.
  assert (Hm1k : dict_mem m1 k = false).
  { destruct (dict_mem m1 k) eqn:E; [|reflexivity]. exfalso. apply Hk.
    apply (alias_pass_keys params pre m0 Hk0). apply dict_mem_In, E. }
  assert (Hstep : alias_step params m1 (k, v) = dict_set m1 t v).
  { rewrite alias_step_eq, Hm1k. unfold alias_target. rewrite Hl.
    rewrite (proj2 (mem_str_In t params) Ht). reflexivity. }
  rewrite Hstep in Hcore.
  assert (Hkpost : ~ In k (map fst post)).
  { rewrite Hargs, map_app in Hnd. cbn [map fst] in Hnd. apply NoDup_remove_2 in Hnd.
    intros H. apply Hnd, in_or_app. right. exact H. }
  destruct (alias_pass_post params t v post (dict_set m1 t v)) as [Hmem Hget].
  - apply dict_mem_set_same.
  - apply dict_get_set_same.
  - intros k' v' Hin' Hp. apply dict_mem_set. unfold m1. apply alias_pass_mem.
    apply (Hd0 k' v'); [rewrite Hargs; apply in_or_app; right; right; exact Hin'|exact Hp].
  - intros k' v' Hin' Hnp. apply (Hoth k' v'); [rewrite Hargs; apply in_or_app; right; right; exact Hin'| |exact Hnp].
    intros ->. apply Hkpost. apply in_map_iff. exists (k, v'). split; [reflexivity|exact Hin'].
  - rewrite <- Hcore in Hmem, Hget.
    exists (map_core args params). split; [|split; [apply dict_mem_In, Hmem|exact Hget]].
    unfold map_aliases_to_signature. fold params.
    destruct (map_core args params) as [|kv0 r0]; [discriminate|].
    destruct params as [|p0 [|p1 ps]]; reflexivity.
Qed.

(** C7. The parameters the code inspects are the declared parameters that
    can be passed by keyword (POSITIONAL_OR_KEYWORD or KEYWORD_ONLY), here
    [param_names f]. With a tool whose only such parameter is [ticker], the
    arguments [{"ticker_symbol": "FPT"}] become [{"ticker": "FPT"}]; in
    general a single argument whose key is not a parameter name, whose
    lowercased key the alias table maps to [t], and [t] a parameter name,
    is passed as [t]; the same holds for such an argument inside any
    argument map, as long as no other argument whose key is not a
    parameter name is bound to [t] as well (then the later one wins); and
    when the normalised map is empty, some argument was given and the
    function has exactly one keyword parameter [p], the first argument's
    value is passed as [p], whatever its key. *)
Theorem map_aliases_to_signature_spec :
  (forall f, param_names f = ["ticker"] ->
     map_aliases_to_signature [("ticker_symbol", PStr "FPT")] f = Ok [("ticker", PStr "FPT")]) /\
  (forall f k v t,
     ~ In k (param_names f) -> str_lookup alias_map (py_lower k) = Some t -> In t (param_names f) ->
     map_aliases_to_signature [(k, v)] f = Ok [(t, v)]) /\
  (forall f args k v t,
     NoDup (map fst args) -> In (k, v) args -> ~ In k (param_names f) ->
     str_lookup alias_map (py_lower k) = Some t -> In t (param_names f) ->
     (forall k' v', In (k', v') args -> k' <> k -> ~ In k' (param_names f) ->
        alias_target (param_names f) k' <> Some t) ->
     exists m, map_aliases_to_signature args f = Ok m /\ In t (map fst m) /\ dict_get m t = v) /\
  (forall f args p k v rest,
     args = (k, v) :: rest -> map_core args (param_names f) = [] -> param_names f = [p] ->
     map_aliases_to_signature args f = Ok [(p, v)]).
Proof.
  split; [|split; [|split]].
  - intros f Hp. unfold map_aliases_to_signature. rewrite Hp. reflexivity.
  - intros f k v t Hk Hl Ht. unfold map_aliases_to_signature, map_core. cbn [fold_left fst snd].
    rewrite (mem_str_notin k _ Hk). unfold alias_step. cbn [dict_mem].
    rewrite Hl. apply mem_str_In in Ht. rewrite Ht. reflexivity.
  - exact map_aliases_alias_any.
  - intros f args p k v rest -> Hm Hp. unfold map_aliases_to_signature.
    rewrite Hp in Hm |- *. rewrite Hm. reflexivity.
Qed.

(** Witness for C7: an alias key next to a parameter key, for a tool with
    the keyword parameters [ticker] and [period]; and an unknown key, for a
    tool with the single keyword parameter [ticker] (and a [**kwargs],
    which is not a keyword parameter name). *)
Lemma map_aliases_to_signature_spec_witness :
  (exists m, map_aliases_to_signature [("ticker_symbol", PStr "FPT"); ("period", PStr "1y")]
               (mk_func 8 "get_price_history" [("ticker", POSITIONAL_OR_KEYWORD); ("period", POSITIONAL_OR_KEYWORD)])
             = Ok m /\ In "ticker" (map fst m) /\ dict_get m "ticker" = PStr "FPT") /\
  map_aliases_to_signature [("foo", PStr "FPT")]
    (mk_func 7 "get_fundamentals" [("ticker", POSITIONAL_OR_KEYWORD); ("kwargs", VAR_KEYWORD)])
  = Ok [("ticker", PStr "FPT")].
Proof.
  split.
  - apply (proj1 (proj2 (proj2 map_aliases_to_signature_spec))
             (mk_func 8 "get_price_history" [("ticker", POSITIONAL_OR_KEYWORD); ("period", POSITIONAL_OR_KEYWORD)])
             [("ticker_symbol", PStr "FPT"); ("period", PStr "1y")] "ticker_symbol" (PStr "FPT") "ticker").
    + simpl. apply NoDup_cons; [intros [H|[]]; discriminate|apply NoDup_cons; [intros []|constructor]].
    + left; reflexivity.
    + simpl; intros [H|[H|[]]]; discriminate.
    + reflexivity.
    + simpl; auto.
    + intros k' v' [H|[H|[]]] Hne Hnp; injection H as <- <-; [congruence|].
      exfalso; apply Hnp; simpl; auto.
  - apply (proj2 (proj2 (proj2 map_aliases_to_signature_spec))
             (mk_func 7 "get_fundamentals" [("ticker", POSITIONAL_OR_KEYWORD); ("kwargs", VAR_KEYWORD)])
             [("foo", PStr "FPT")] "ticker" "foo" (PStr "FPT") []); reflexivity.
Defined.

(** ** Tool selection *)

Lemma insert_front_fold : forall hs acc,
  fold_left (fun t f => insert_front f t) hs acc = rev (dedup_first acc hs) ++ acc.
Proof.
  induction hs as [|f hs IH]; intros acc; simpl; [reflexivity|].
  unfold insert_front at 2. destruct (existsb (func_eqb f) acc).
  - apply IH.
  - rewrite IH. simpl. rewrite <- app_assoc. reflexivity.
Qed.

Lemma apply_rules_fold E q : forall rules acc,
  fold_left (apply_rule E q) rules acc =
  fold_left (fun t f => insert_front f t)
    (flat_map (fun rule =>
                 if existsb (fun w => str_contains w q) (fst rule) then
                   match registry_get E (snd rule) with
                   | Some m => [tm_func m]
                   | None => []
                   end
                 else []) rules) acc.
Proof.
  induction rules as [|r rules IH]; intros acc; simpl; [reflexivity|].
  rewrite fold_left_app, IH. f_equal. unfold apply_rule.
  destruct (existsb (fun w => str_contains w q) (fst r)); [|reflexivity].
  destruct (registry_get E (snd r)); reflexivity.
Qed.

(** C8: the list returned by [_search_tools] is the keyword-rule hits
    (registered tools of the matching rules, in evaluation order) without
    those already in the list (the semantic hits, and hits met earlier),
    reversed, so that the latest matching rule's tool comes first, followed
    by the semantic hits in their rank order. *)
Theorem search_tools_order E text :
  search_tools E text =
  rev (dedup_first (semantic_hits E text) (rule_hits E (py_lower text))) ++ semantic_hits E text.
Proof.
  unfold search_tools, rule_hits. rewrite apply_rules_fold. apply insert_front_fold.
Qed.

(** ** The conversation history *)

Lemma keeps_bind {A B} (m : M A) (k : A -> M B) :
  keeps_history m -> (forall a, keeps_history (k a)) -> keeps_history (bind m k).
Proof.
  intros Hm Hk s. unfold bind. specialize (Hm s).
  destruct (m s) as [[a|e] s'] eqn:E; simpl in *; [rewrite Hk|]; exact Hm.
Qed.

Lemma keeps_ret {A} (a : A) : keeps_history (ret a).
Proof. intros s; reflexivity. Qed.

Lemma keeps_lift {A} (r : result A) : keeps_history (lift r).
Proof. intros s; reflexivity. Qed.

Lemma keeps_get_state : keeps_history get_state.
Proof. intros s; reflexivity. Qed.

Lemma keeps_set_answered a : keeps_history (set_answered a).
Proof. intros s; reflexivity. Qed.

Lemma keeps_put_record sid r : keeps_history (put_record sid r).
Proof. intros s; reflexivity. Qed.

Lemma keeps_call_tool E f args : keeps_history (call_tool E f args).
Proof. intros s; reflexivity. Qed.

Create HintDb keeps.
#[local] Hint Resolve keeps_bind keeps_ret keeps_lift keeps_get_state keeps_set_answered
  keeps_put_record keeps_call_tool : keeps.

Lemma keeps_run_tool E hist now query sid resolved deps f name args :
  keeps_history (run_tool E hist now query sid resolved deps f name args).
Proof.
  unfold run_tool. apply keeps_bind; [auto with keeps|].
  intros [v|msg]; auto with keeps.
Qed.

Lemma keeps_process_node E now query sq : keeps_history (process_node E now query sq).
Proof.
  unfold process_node. apply keeps_bind; [auto with keeps|]. intros st.
  apply keeps_bind; [auto with keeps|]. intros [resolved [|m ms]]; [|auto with keeps].
  destruct (search_tools E resolved) as [|tool0 tools]; [auto with keeps|].
  apply keeps_bind; [auto with keeps|]. intros [raw|f name args]; [auto with keeps|].
  apply keeps_run_tool.
Qed.

Lemma keeps_process_all E now query ordered : keeps_history (process_all E now query ordered).
Proof.
  induction ordered as [|sq r IH]; simpl; [apply keeps_ret|].
  apply keeps_bind; [apply keeps_process_node|intros _; exact IH].
Qed.

Lemma record_exchange_length hist e : (List.length (record_exchange hist e) <= 10)%nat.
Proof.
  unfold record_exchange. destruct (10 <? List.length (hist ++ [e]))%nat eqn:E.
  - apply Nat.ltb_lt in E. rewrite length_skipn. lia.
  - apply Nat.ltb_ge in E. exact E.
Qed.

(** After [answer], the history is the one before when the run raised,
    and the one before with the new exchange recorded when it returned. *)
Lemma answer_history E now query subs st :
  match answer E now query subs st with
  | (Err _, st') => history st' = history st
  | (Ok out, st') =>
      exists recs, history st' =
        record_exchange (history st) (mk_exchange query (report out) now recs)
  end.
Proof.
  unfold answer. cbv [bind lift].
  destruct (topo_sort_subquestions subs) as [ordered|e]; [|reflexivity].
  cbv [set_answered]. cbn [history].
  pose proof (keeps_process_all E now query ordered
                (mk_state (history st) [] (calls st))) as Hk.
  destruct (process_all E now query ordered (mk_state (history st) [] (calls st)))
    as [[u|e] s1] eqn:Hp; cbn [snd history] in Hk; [|exact Hk].
  cbv [finish bind get_state set_history ret]. cbn [history report].
  rewrite Hk. eexists. reflexivity.
Qed.

Lemma run_op_length E st op :
  (List.length (history st) <= 10)%nat -> (List.length (history (run_op E st op)) <= 10)%nat.
Proof.
  intros H. destruct op as [now query subs|]; simpl.
  - pose proof (answer_history E now query subs st) as Ha.
    destruct (answer E now query subs st) as [[out|e] st']; simpl.
    + destruct Ha as [recs ->]. apply record_exchange_length.
    + rewrite Ha. exact H.
  - cbv [clear_conversation_history set_history]. simpl. lia.
Qed.

(** C9: in any session of [answer] and [clear_conversation_history] calls
    on a fresh agent, [conversation_history] holds at most 10 exchanges; a
    completed [answer] appends its exchange (user query and report) to the
    history, and when the history already held 10 exchanges the oldest is
    dropped and the other 9 are kept in order before the new one. *)
Theorem conversation_history_bounded :
  (forall E ops, (List.length (history (run_session E ops)) <= 10)%nat) /\
  (forall E now query subs st out st',
     answer E now query subs st = (Ok out, st') ->
     exists e, ex_user_query e = query /\ ex_assistant_response e = report out /\
       ((List.length (history st) < 10)%nat -> history st' = history st ++ [e]) /\
       (List.length (history st) = 10%nat -> history st' = tl (history st) ++ [e])).
Proof.
  split.
  - intros E ops. unfold run_session.
    assert (Hg : forall st, (List.length (history st) <= 10)%nat ->
                 (List.length (history (fold_left (run_op E) ops st)) <= 10)%nat).
    { induction ops as [|op ops IH]; intros st H; simpl; [exact H|].
      apply IH, run_op_length, H. }
    apply Hg. simpl. lia.
  - intros E now query subs st out st' Ha.
    pose proof (answer_history E now query subs st) as Hh. rewrite Ha in Hh.
    destruct Hh as [recs ->].
    exists (mk_exchange query (report out) now recs). simpl.
    split; [reflexivity|]. split; [reflexivity|]. unfold record_exchange.
    rewrite length_app. simpl. split.
    + intros Hl. replace (10 <? List.length (history st) + 1)%nat with false
        by (symmetry; apply Nat.ltb_ge; lia). reflexivity.
    + intros Hl. rewrite Hl. simpl.
      destruct (history st) as [|x xs]; simpl in Hl; [discriminate|]. reflexivity.
Qed.

(** ** A failing tool call, concretely *)

(** Counterexample for C6: when the selected tool raises, the record stored
    for the node is [{"id", "answer", "used_tools", "extracted_data"}] with
    the answer ["ERROR executing tool get_stock_price: connection refused"]
    and [used_tools] = [["get_stock_price"]]; the record has no [status]
    field. *)
Lemma process_all_tool_error_no_status :
  let sq := mk_subquestion 1 "Price of FPT" [] in
  let st' := snd (process_all sample_env "t" "q" [sq] init_state) in
  zdict_get (answered st') 1 = Some (error_record 1 "get_stock_price" "connection refused") /\
  dict_get (error_record 1 "get_stock_price" "connection refused") "answer" =
    PStr "ERROR executing tool get_stock_price: connection refused" /\
  dict_get (error_record 1 "get_stock_price" "connection refused") "used_tools" =
    PList [PStr "get_stock_price"] /\
  dict_mem (error_record 1 "get_stock_price" "connection refused") "status" = false.
Proof. vm_compute. repeat split. Qed.

(** ** Placeholder resolution, in general *)

Lemma span_app p : forall s, (fst (span p s) ++ snd (span p s))%string = s.
Proof.
  induction s as [|c r IH]; simpl; [reflexivity|].
  destruct (p c); [|reflexivity].
  destruct (span p r) as [a b] eqn:E. simpl in *. rewrite IH. reflexivity.
Qed.

Lemma match_placeholder_split s raw key rest :
  match_placeholder s = Some (raw, key, rest) -> s = (raw ++ rest)%string.
Proof.
  destruct s as [|c1 s]; [discriminate|].
  destruct c1 as [[] [] [] [] [] [] [] []]; try discriminate.
  destruct s as [|c2 s1]; [discriminate|].
  destruct c2 as [[] [] [] [] [] [] [] []]; try discriminate.
  simpl.
  pose proof (span_app is_space s1) as H1.
  destruct (span is_space s1) as [ws1 s2]. simpl in H1.
  pose proof (span_app is_key_char s2) as H2.
  destruct (span is_key_char s2) as [k s3]. simpl in H2.
  destruct (String.eqb k EmptyString); [discriminate|].
  pose proof (span_app is_space s3) as H3.
  destruct (span is_space s3) as [ws2 s4]. simpl in H3.
  destruct s4 as [|c3 s4]; [discriminate|].
  destruct c3 as [[] [] [] [] [] [] [] []]; try discriminate.
  destruct s4 as [|c4 s5]; [discriminate|].
  destruct c4 as [[] [] [] [] [] [] [] []]; try discriminate.
  intros Hs. injection Hs as <- <- <-. subst. simpl.
  rewrite !str_app_assoc. reflexivity.
Qed.

Lemma render_cons sg segs : render (sg :: segs) = (seg_text sg ++ render segs)%string.
Proof. reflexivity. Qed.

Lemma render_scan : forall fuel s, render (scan fuel s) = s.
Proof.
  induction fuel as [|f IH]; intros s.
  - cbn [scan]. unfold render. induction s as [|c r IHs]; simpl in *; [reflexivity|].
    rewrite IHs. reflexivity.
  - destruct s as [|c r]; [reflexivity|]. cbn [scan].
    destruct (match_placeholder (String c r)) as [[[raw key] rest]|] eqn:Hm.
    + rewrite render_cons, IH. symmetry. apply match_placeholder_split with key. exact Hm.
    + rewrite render_cons, IH. reflexivity.
Qed.

Lemma resolve_segments_no_answers : forall segs,
  resolve_segments [] segs = Ok (render segs, seg_keys segs).
Proof.
  induction segs as [|[c|raw key] r IH]; simpl; [reflexivity| |].
  - rewrite IH. reflexivity.
  - assert (Ht : resolve_token [] key = Ok None).
    { unfold resolve_token. destruct (match_from_q key) as [[fn ds]|]; reflexivity. }
    rewrite Ht. simpl. rewrite IH. reflexivity.
Qed.

Lemma resolve_segments_no_tokens answered : forall segs,
  seg_keys segs = [] -> resolve_segments answered segs = Ok (render segs, []).
Proof.
  induction segs as [|[c|raw key] r IH]; simpl; intros H; [reflexivity| |discriminate].
  rewrite IH by exact H. reflexivity.
Qed.

(** [resolve_placeholders] with no answered sub-question leaves the text as
    it is and reports every placeholder token of the text, in order, as
    missing; and a text without placeholder tokens comes back unchanged with
    nothing missing, whatever has been answered. *)
Theorem resolve_placeholders_unchanged :
  (forall text, resolve_placeholders text [] = Ok (text, extract_placeholders text)) /\
  (forall text answered, extract_placeholders text = [] ->
     resolve_placeholders text answered = Ok (text, [])).
Proof.
  split.
  - intros text. unfold resolve_placeholders, segments.
    rewrite resolve_segments_no_answers, render_scan. reflexivity.
  - intros text answered H. unfold resolve_placeholders, segments.
    rewrite resolve_segments_no_tokens, render_scan; [reflexivity|exact H].
Qed.

Lemma resolve_segments_missing_subseq answered : forall segs s m,
  resolve_segments answered segs = Ok (s, m) -> subseq m (seg_keys segs).
Proof.
  induction segs as [|[c|raw key] r IH]; simpl; intros s m H.
  - injection H as _ <-. constructor.
  - destruct (resolve_segments answered r) as [[s' m']|e] eqn:E; [|discriminate].
    simpl in H. injection H as _ <-. eapply IH; reflexivity.
  - destruct (resolve_token answered key) as [o|e]; [|discriminate]. simpl in H.
    destruct (resolve_segments answered r) as [[s' m']|e] eqn:E; [|discriminate].
    simpl in H. destruct o as [v|]; injection H as _ <-; simpl.
    + apply subseq_skip. eapply IH; reflexivity.
    + apply subseq_take. eapply IH; reflexivity.
Qed.

(** When [resolve_placeholders] returns, its missing list is the list of
    placeholder keys of the text ([extract_placeholders]) with some left
    out, in the same order: a key is reported at most as often as it occurs,
    and never a key the text does not hold. *)
Theorem resolve_placeholders_missing_subseq text answered resolved missing :
  resolve_placeholders text answered = Ok (resolved, missing) ->
  subseq missing (extract_placeholders text).
Proof. apply resolve_segments_missing_subseq. Qed.

Lemma resolve_placeholders_missing_subseq_witness :
  resolve_placeholders "Price of {{TICKER_FROM_Q1}}" [] = Ok ("Price of {{TICKER_FROM_Q1}}", ["TICKER_FROM_Q1"]) /\
  subseq ["TICKER_FROM_Q1"] (extract_placeholders "Price of {{TICKER_FROM_Q1}}").
Proof.
  assert (H : resolve_placeholders "Price of {{TICKER_FROM_Q1}}" []
              = Ok ("Price of {{TICKER_FROM_Q1}}", ["TICKER_FROM_Q1"])) by (vm_compute; reflexivity).
  split; [exact H|]. exact (resolve_placeholders_missing_subseq _ _ _ _ H).
Defined.

(** ** The agent's run, the parsers, the tool registry and the index *)

Lemma process_node_ok E now query sq st u st' :
  process_node E now query sq st = (Ok u, st') ->
  exists rec, answered st' = zdict_set (answered st) (sq_id sq) rec /\
              dict_get rec "id" = PInt (sq_id sq).
Proof.
  unfold process_node. cbv [bind get_state lift].
  destruct (resolve_placeholders (question sq) (answered st)) as [[resolved missing]|e]; [|discriminate].
  destruct missing as [|m ms].
  - destruct (search_tools E resolved) as [|tool0 tools].
    + cbv [put_record]. intros H. injection H as _ <-. simpl. eexists; split; reflexivity.
    + destruct (plan_call E _ tool0) as [[raw|f name args]|e]; [| |discriminate].
      * cbv [put_record]. intros H. injection H as _ <-. simpl. eexists; split; reflexivity.
      * unfold run_tool. cbv [bind call_tool]. destruct (tool_impl E f args) as [v|msg];
        cbv [put_record]; intros H; injection H as _ <-; simpl; eexists; split; reflexivity.
  - cbv [put_record]. intros H. injection H as _ <-. simpl. eexists; split; reflexivity.
Qed.

Lemma process_node_calls E now query sq st :
  let st' := snd (process_node E now query sq st) in
  calls st' = calls st \/ exists f args, calls st' = calls st ++ [(f, args)].
Proof.
  unfold process_node. cbv [bind get_state lift].
  destruct (resolve_placeholders (question sq) (answered st)) as [[resolved missing]|e]; [|left; reflexivity].
  destruct missing as [|m ms]; [|left; reflexivity].
  destruct (search_tools E resolved) as [|tool0 tools]; [left; reflexivity|].
  destruct (plan_call E _ tool0) as [[raw|f name args]|e]; [left; reflexivity| |left; reflexivity].
  right. exists f, args. unfold run_tool. cbv [bind call_tool].
  destruct (tool_impl E f args); reflexivity.
Qed.

Lemma process_all_calls E now query : forall ord st,
  exists extra, calls (snd (process_all E now query ord st)) = calls st ++ extra /\
                (List.length extra <= List.length ord)%nat.
Proof.
  induction ord as [|sq r IH]; intros st; simpl.
  - exists []. rewrite app_nil_r. split; [reflexivity|simpl; lia].
  - cbv [bind]. pose proof (process_node_calls E now query sq st) as Hc. simpl in Hc.
    destruct (process_node E now query sq st) as [[u|e] s1]; simpl in Hc |- *.
    + destruct (IH s1) as [ex [Hex Hl]]. rewrite Hex.
      destruct Hc as [-> | [f [args ->]]].
      * exists ex. split; [reflexivity|simpl; lia].
      * exists ((f, args) :: ex). rewrite <- app_assoc. split; [reflexivity|simpl; lia].
    + destruct Hc as [-> | [f [args ->]]].
      * exists []. rewrite app_nil_r. split; [reflexivity|simpl; lia].
      * exists [(f, args)]. split; [reflexivity|simpl; lia].
Qed.

Lemma zdict_set_fresh {A} (d : list (Z * A)) k v :
  ~ In k (map fst d) -> zdict_set d k v = d ++ [(k, v)].
Proof.
  induction d as [|[k' v'] r IH]; simpl; intros Hn; [reflexivity|].
  destruct (Z.eqb_spec k' k); [exfalso; apply Hn; left; assumption|].
  rewrite IH; [reflexivity|]. intros H; apply Hn; right; exact H.
Qed.

Lemma ids_match_set d k rec :
  ids_match d -> dict_get rec "id" = PInt k -> ids_match (zdict_set d k rec).
Proof.
  unfold ids_match. induction d as [|[k' v'] r IH]; simpl; intros Hd Hr k0 r0 Hin.
  - destruct Hin as [Heq|[]]. injection Heq as <- <-. exact Hr.
  - destruct (Z.eqb_spec k' k) as [->|Hne].
    + destruct Hin as [Heq|Hin]; [injection Heq as <- <-; exact Hr|].
      apply Hd. right. exact Hin.
    + destruct Hin as [Heq|Hin]; [apply Hd; left; exact Heq|].
      apply (IH (fun k1 r1 H1 => Hd k1 r1 (or_intror H1)) Hr k0 r0 Hin).
Qed.

Lemma process_all_records E now query : forall ord st u st',
  process_all E now query ord st = (Ok u, st') ->
  NoDup (map sq_id ord) ->
  (forall sq, In sq ord -> ~ In (sq_id sq) (map fst (answered st))) ->
  ids_match (answered st) ->
  map fst (answered st') = map fst (answered st) ++ map sq_id ord /\ ids_match (answered st').
Proof.
  induction ord as [|sq r IH]; intros st u st' H Hnd Hfresh Hid; simpl in H.
  - injection H as _ <-. rewrite app_nil_r. split; [reflexivity|exact Hid].
  - cbv [bind] in H. destruct (process_node E now query sq st) as [[u1|e] s1] eqn:Hp; [|discriminate].
    destruct (process_node_ok E now query sq st u1 s1 Hp) as [rec [Ha Hr]].
    simpl in Hnd. inversion Hnd as [|? ? Hni Hnd']; subst.
    assert (Hf : ~ In (sq_id sq) (map fst (answered st))) by (apply Hfresh; left; reflexivity).
    rewrite zdict_set_fresh in Ha by exact Hf.
    destruct (IH s1 u st' H Hnd') as [Hk Hid'].
    + intros x Hx. rewrite Ha, map_app, in_app_iff. simpl. intros [Hin|[Heq|[]]].
      * apply (Hfresh x); [right; exact Hx|exact Hin].
      * apply Hni. rewrite Heq. apply in_map. exact Hx.
    + rewrite Ha. rewrite <- zdict_set_fresh by exact Hf. apply ids_match_set; assumption.
    + rewrite Hk, Ha, map_app, <- app_assoc. split; [reflexivity|exact Hid'].
Qed.

Lemma topo_sort_ok_facts l r :
  topo_sort_subquestions l = Ok r ->
  Permutation l r /\ NoDup (map sq_id r) /\
  (forall pre sq post, r = pre ++ sq :: post -> incl (depends_on sq) (map sq_id pre)).
Proof.
  intros Hok.
  assert (Hu : NoDup (map sq_id l)).
  { destruct (NoDup_dec Z.eq_dec (map sq_id l)) as [H|H]; [exact H|].
    destruct (topo_sort_dup_error l H) as [msg Hm]. congruence. }
  assert (Hvalid : forall sq d, In sq l -> In d (depends_on sq) -> In d (map sq_id l)).
  { intros sq d Hsq Hd. destruct (In_dec Z.eq_dec d (map sq_id l)) as [H|H]; [exact H|].
    destruct (topo_sort_graph_error l (or_introl (ex_intro _ sq (ex_intro _ d (conj Hsq (conj Hd H))))))
      as [msg Hm]. congruence. }
  destruct (topo_sort_run l Hu Hvalid) as [res [indeg' [Hinv [_ [_ Hrun]]]]].
  rewrite Hrun in Hok. destruct (Nat.eqb_spec (List.length res) (List.length l)) as [Hlen|]; [|discriminate].
  injection Hok as <-.
  destruct Hinv as [Hin [Hnd [_ [_ [_ [_ Htop]]]]]]. rewrite app_nil_r in Hnd.
  rewrite Forall_forall in Hin.
  split; [|split; [exact Hnd|]].
  - apply Permutation_sym, NoDup_Permutation_bis.
    + apply (NoDup_map_inv sq_id). exact Hnd.
    + lia.
    + intros x Hx. apply Hin, Hx.
  - intros pre sq post Hr.
    assert (Hsq : In sq l) by (apply Hin; rewrite Hr; apply in_or_app; right; left; reflexivity).
    rewrite <- (deps_of_in l sq Hu Hsq).
    apply (Htop (map sq_id pre) (sq_id sq) (map sq_id post)).
    rewrite Hr, map_app. reflexivity.
Qed.

(** [topo_sort_subquestions] is sound whenever it returns, whatever its
    input: the result is a permutation of the input with pairwise distinct
    ids, and every node comes after all the nodes its [depends_on] lists. *)
Theorem topo_sort_subquestions_sound l r :
  topo_sort_subquestions l = Ok r ->
  Permutation l r /\ NoDup (map sq_id r) /\
  (forall pre sq post, r = pre ++ sq :: post -> incl (depends_on sq) (map sq_id pre)).
Proof. apply topo_sort_ok_facts. Qed.

Lemma topo_sort_subquestions_sound_witness :
  let l := [mk_subquestion 2 "Price of FPT" [1%Z]; mk_subquestion 1 "Which ticker?" []] in
  let r := [mk_subquestion 1 "Which ticker?" []; mk_subquestion 2 "Price of FPT" [1%Z]] in
  topo_sort_subquestions l = Ok r /\
  (Permutation l r /\ NoDup (map sq_id r) /\
   (forall pre sq post, r = pre ++ sq :: post -> incl (depends_on sq) (map sq_id pre))).
Proof.
  intros l r.
  assert (H : topo_sort_subquestions l = Ok r) by (vm_compute; reflexivity).
  split; [exact H|]. exact (topo_sort_subquestions_sound l r H).
Defined.


(** [answer] on sub-questions with a repeated id raises [ValueError]
    before it calls any tool or changes the agent's state. *)
Theorem answer_duplicate_ids E now query subs st :
  ~ NoDup (map sq_id subs) ->
  exists msg, answer E now query subs st = (Err (ValueError msg), st).
Proof.
  intros H. destruct (topo_sort_dup_error subs H) as [msg Hm].
  exists msg. unfold answer. cbv [bind lift]. rewrite Hm. reflexivity.
Qed.

Lemma answer_duplicate_ids_witness :
  exists msg, answer sample_env "2025-01-01T00:00:00" "q"
    [mk_subquestion 1 "a" []; mk_subquestion 1 "b" []] init_state
    = (Err (ValueError msg), init_state).
Proof.
  apply answer_duplicate_ids. cbn. intros H. inversion H as [|? ? Hn _]. apply Hn. left. reflexivity.
Defined.


(** When [answer] returns, it has answered every sub-question exactly once,
    in the order of the schedule: the ids of [answered_subquestions] are the
    ids of the scheduled nodes, a permutation of the input. *)
Theorem answer_records_per_node E now query subs st out st' :
  answer E now query subs st = (Ok out, st') ->
  exists ordered, topo_sort_subquestions subs = Ok ordered /\
    Permutation subs ordered /\
    map (fun r => dict_get r "id") (answered_subquestions out) = map (fun sq => PInt (sq_id sq)) ordered.
Proof.
  unfold answer. cbv [bind lift set_answered].
  destruct (topo_sort_subquestions subs) as [ordered|e] eqn:Ht; [|discriminate].
  destruct (topo_sort_ok_facts subs ordered Ht) as [Hp [Hnd _]].
  destruct (process_all E now query ordered (mk_state (history st) [] (calls st))) as [[u|e] s1] eqn:Hpa;
    [|discriminate].
  destruct (process_all_records E now query ordered _ u s1 Hpa Hnd) as [Hk Hid].
  - intros sq _ H. exact H.
  - intros k r [].
  - cbv [finish get_state set_history ret]. intros H. injection H as <- _. simpl.
    exists ordered. split; [reflexivity|]. split; [exact Hp|].
    simpl in Hk. transitivity (map PInt (map sq_id ordered)); [|rewrite map_map; reflexivity].
    rewrite <- Hk, !map_map. apply map_ext_in.
    intros [k r] Hkr. apply (Hid k r Hkr).
Qed.

Lemma answer_records_per_node_witness :
  let subs := [mk_subquestion 2 "Price of FPT" [1%Z]; mk_subquestion 1 "Which ticker?" []] in
  let res := answer sample_env "t" "q" subs init_state in
  exists ordered, topo_sort_subquestions subs = Ok ordered /\
    Permutation subs ordered /\
    map (fun r => dict_get r "id")
      (answered_subquestions (match fst res with Ok o => o | Err _ => mk_answer_out EmptyString [] [] end))
    = map (fun sq => PInt (sq_id sq)) ordered.
Proof.
  intros subs res.
  apply (answer_records_per_node sample_env "t" "q" subs init_state _ (snd res)).
  vm_compute. reflexivity.
Defined.

(** One run of [answer] makes at most one tool call per sub-question, and
    only appends to the calls made so far, also when it raises. *)
Theorem answer_tool_calls_bounded E now query subs st :
  exists extra, calls (snd (answer E now query subs st)) = calls st ++ extra /\
                (List.length extra <= List.length subs)%nat.
Proof.
  unfold answer. cbv [bind lift set_answered].
  destruct (topo_sort_subquestions subs) as [ordered|e] eqn:Ht.
  - destruct (topo_sort_ok_facts subs ordered Ht) as [Hp _].
    pose proof (process_all_calls E now query ordered (mk_state (history st) [] (calls st))) as [ex [Hex Hl]].
    destruct (process_all E now query ordered (mk_state (history st) [] (calls st))) as [[u|e] s1];
      simpl in Hex |- *.
    + cbv [finish get_state set_history ret bind]. simpl. exists ex.
      rewrite Hex. split; [reflexivity|]. rewrite (Permutation_length Hp). exact Hl.
    + exists ex. rewrite Hex. split; [reflexivity|]. rewrite (Permutation_length Hp). exact Hl.
  - exists []. rewrite app_nil_r. split; [reflexivity|simpl; lia].
Qed.

Lemma map_core_keys args params x : In x (map fst (map_core args params)) -> In x params.
Proof.
  unfold map_core.
  assert (H1 : forall l m, (forall y, In y (map fst m) -> In y params) ->
                 forall y, In y (map fst (fold_left (fun m kv => if mem_str (fst kv) params
                                                      then dict_set m (fst kv) (snd kv) else m) l m)) ->
                 In y params).
  { induction l as [|[k v] r IH]; simpl; intros m Hm; [exact Hm|].
    apply IH. destruct (mem_str k params) eqn:Hk; [|exact Hm].
    intros y Hy. destruct (dict_set_keys _ _ _ _ Hy) as [->|H]; [apply mem_str_In, Hk|apply Hm, H]. }
  assert (H2 : forall l m, (forall y, In y (map fst m) -> In y params) ->
                 forall y, In y (map fst (fold_left (alias_step params) l m)) -> In y params).
  { induction l as [|kv r IH]; simpl; intros m Hm; [exact Hm|].
    apply IH. intros y Hy. destruct (alias_step_keys _ _ _ _ Hy); [assumption|apply Hm; assumption]. }
  apply H2, H1. simpl. tauto.
Qed.

(** [_map_aliases_to_signature] only returns keys that are keyword
    parameters of the function's signature. *)
Theorem map_aliases_to_signature_keys args f m :
  map_aliases_to_signature args f = Ok m -> forall k, In k (map fst m) -> In k (param_names f).
Proof.
  unfold map_aliases_to_signature.
  destruct (map_core args (param_names f)) as [|kv0 r0] eqn:Hc.
  - destruct (param_names f) as [|p0 [|p1 ps]] eqn:Hp.
    + intros H. injection H as <-. simpl. tauto.
    + destruct args as [|[k0 v0] a]; [discriminate|]. intros H. injection H as <-.
      simpl. intros k [<-|[]]. left; reflexivity.
    + intros H. injection H as <-. simpl. tauto.
  - intros H. assert (Hm : m = kv0 :: r0) by (destruct (param_names f) as [|p0 [|p1 ps]]; congruence).
    subst m. rewrite <- Hc. intros k Hk. apply (map_core_keys args), Hk.
Qed.

Lemma map_aliases_to_signature_keys_witness :
  map_aliases_to_signature [("symbol", PStr "FPT")] price_tool = Ok [("ticker", PStr "FPT")] /\
  (forall k, In k (map fst [("ticker", PStr "FPT")]) -> In k (param_names price_tool)).
Proof.
  assert (H : map_aliases_to_signature [("symbol", PStr "FPT")] price_tool = Ok [("ticker", PStr "FPT")])
    by (vm_compute; reflexivity).
  split; [exact H|]. exact (map_aliases_to_signature_keys _ _ _ H).
Defined.



(** When both a parameter name [k] and an alias [k'] of it are passed, the
    alias's value wins, in either order of the arguments: the alias pass
    runs after the direct pass and overwrites its value. *)
Theorem map_aliases_to_signature_alias_overrides f k v k' v' :
  In k (param_names f) -> ~ In k' (param_names f) -> str_lookup alias_map (py_lower k') = Some k ->
  map_aliases_to_signature [(k, v); (k', v')] f = Ok [(k, v')] /\
  map_aliases_to_signature [(k', v'); (k, v)] f = Ok [(k, v')].
Proof.
  intros Hk Hk' Hl.
  assert (Hne : String.eqb k k' = false).
  { apply String.eqb_neq. intros ->. contradiction. }
  assert (Hm : mem_str k (param_names f) = true) by (apply mem_str_In, Hk).
  assert (Hm' : mem_str k' (param_names f) = false) by (apply mem_str_notin, Hk').
  assert (A1 : forall w, alias_step (param_names f) [(k, w)] (k, v) = [(k, w)]).
  { intros w. unfold alias_step. cbn [dict_mem]. rewrite String.eqb_refl. reflexivity. }
  assert (A2 : alias_step (param_names f) [(k, v)] (k', v') = [(k, v')]).
  { unfold alias_step. cbn [dict_mem]. rewrite Hne. cbn [orb]. rewrite Hl, Hm.
    cbn [dict_set]. rewrite String.eqb_refl. reflexivity. }
  unfold map_aliases_to_signature, map_core. cbn [fold_left fst snd]. rewrite Hm, Hm'.
  cbn [dict_set]. rewrite A2, A1, A1, A2. split; reflexivity.
Qed.

Lemma map_aliases_to_signature_alias_overrides_witness :
  map_aliases_to_signature [("ticker", PStr "VNM"); ("symbol", PStr "FPT")] price_tool = Ok [("ticker", PStr "FPT")] /\
  map_aliases_to_signature [("symbol", PStr "FPT"); ("ticker", PStr "VNM")] price_tool = Ok [("ticker", PStr "FPT")].
Proof.
  apply map_aliases_to_signature_alias_overrides.
  - vm_compute. left. reflexivity.
  - vm_compute. intros [H|[]]. discriminate H.
  - vm_compute. reflexivity.
Defined.



Lemma apply_rules_invariant E q (P : list py_func -> Prop) :
  (forall f tools, registered E f -> P tools -> P (insert_front f tools)) ->
  forall rules tools, P tools -> P (fold_left (apply_rule E q) rules tools).
Proof.
  intros Hstep. induction rules as [|r rules IH]; intros tools Ht; simpl; [exact Ht|].
  apply IH. unfold apply_rule.
  destruct (existsb (fun w => str_contains w q) (fst r)); [|exact Ht].
  destruct (registry_get E (snd r)) as [m|] eqn:Hg; [|exact Ht].
  apply Hstep; [exists (snd r), m; split; [exact Hg|reflexivity]|exact Ht].
Qed.

(** [_search_tools] only returns functions of registered tools, and adding
    the keyword tools never puts a function in twice: without duplicates in
    the semantic hits, there are none in the result. *)
Theorem search_tools_registered E text :
  (forall f, In f (search_tools E text) ->
     exists name m, registry_get E name = Some m /\ tm_func m = f) /\
  (NoDup (map fn_id (semantic_hits E text)) -> NoDup (map fn_id (search_tools E text))).
Proof.
  split.
  - apply (apply_rules_invariant E _ (fun tools => forall f, In f tools -> registered E f)).
    + intros f tools Hf Ht g Hg. unfold insert_front in Hg.
      destruct (existsb (func_eqb f) tools); [apply Ht, Hg|].
      destruct Hg as [<-|Hg]; [exact Hf|apply Ht, Hg].
    + intros f Hf. unfold semantic_hits in Hf. destruct (tool_index E) as [search|]; [|destruct Hf].
      apply in_flat_map in Hf as [[n|] [_ Hn]]; [|destruct Hn].
      destruct (registry_get E n) as [m|] eqn:Hg; [|destruct Hn].
      destruct Hn as [<-|[]]. exists n, m. split; [exact Hg|reflexivity].
  - apply (apply_rules_invariant E _ (fun tools => NoDup (map fn_id tools))).
    intros f tools _ Ht. unfold insert_front.
    destruct (existsb (func_eqb f) tools) eqn:He; [exact Ht|].
    simpl. constructor; [|exact Ht]. intros Hin. apply in_map_iff in Hin as [g [Hg Hin]].
    assert (Hx : existsb (func_eqb f) tools = true).
    { apply existsb_exists. exists g. split; [exact Hin|]. unfold func_eqb. rewrite Hg. apply Nat.eqb_refl. }
    congruence.
Qed.

(** [_try_parse_arguments] on a non-empty, unfenced string whose JSON value
    is not an object returns the empty dict: the key=value fallback runs
    only when [json.loads] raises. *)
Theorem try_parse_arguments_non_object E s v :
  s <> EmptyString -> String.prefix "```" (py_strip s) = false ->
  json_loads E (py_strip s) = Some v -> (forall d, v <> PDict d) ->
  try_parse_arguments E s = [].
Proof.
  intros Hs Hp Hj Hv. unfold try_parse_arguments.
  destruct (String.eqb_spec s EmptyString) as [|_]; [contradiction|].
  rewrite Hp, Hj. destruct v; try reflexivity. exfalso. eapply Hv. reflexivity.
Qed.

Lemma try_parse_arguments_non_object_witness :
  try_parse_arguments reply_env "  []  " = [].
Proof.
  apply (try_parse_arguments_non_object reply_env "  []  " (PList [])).
  - discriminate.
  - vm_compute. reflexivity.
  - vm_compute. reflexivity.
  - intros d H. discriminate H.
Defined.


Lemma record_exchange_summary hist e :
  List.length (record_exchange hist e) = Nat.min (S (List.length hist)) 10 /\
  hd_error (rev (record_exchange hist e)) = Some e.
Proof.
  unfold record_exchange. rewrite length_app. cbn [List.length].
  destruct (Nat.ltb_spec 10 (List.length hist + 1)) as [Hl|Hl].
  - rewrite length_skipn, length_app. cbn [List.length]. rewrite Nat.min_r by lia. split; [lia|].
    rewrite skipn_app. replace (List.length hist + 1 - 10 - List.length hist)%nat with 0%nat by lia.
    simpl. rewrite rev_app_distr. reflexivity.
  - rewrite Nat.min_l by lia. rewrite length_app. cbn [List.length]. split; [lia|]. rewrite rev_app_distr. reflexivity.
Qed.

(** After a returning [answer], [get_conversation_summary] counts one more
    exchange, capped at 10, and reports the time of this call as the last
    exchange time; after [clear_conversation_history] it reports no
    exchanges and no times. *)
Theorem conversation_summary_spec :
  (forall E now query subs st out st',
     answer E now query subs st = (Ok out, st') ->
     fst (get_conversation_summary st') =
       Ok (mk_conversation_summary (Nat.min (S (List.length (history st))) 10)
             (option_map ex_timestamp (hd_error (history st'))) (Some now))) /\
  (forall st, fst (get_conversation_summary (snd (clear_conversation_history st))) =
                Ok (mk_conversation_summary 0 None None)).
Proof.
  split.
  - intros E now query subs st out st' Ha.
    pose proof (answer_history E now query subs st) as Hh. rewrite Ha in Hh.
    destruct Hh as [recs Hh].
    destruct (record_exchange_summary (history st) (mk_exchange query (report out) now recs)) as [Hl Hr].
    unfold get_conversation_summary. simpl. rewrite Hh, Hl, Hr. reflexivity.
  - intros st. reflexivity.
Qed.

Lemma map_result_err {A B} (f : A -> result B) l x e :
  In x l -> f x = Err e -> exists e', map_result f l = Err e'.
Proof.
  induction l as [|y r IH]; simpl; intros Hx Hf; [destruct Hx|].
  destruct Hx as [<-|Hx].
  - rewrite Hf. exists e. reflexivity.
  - destruct (f y) as [b|e1]; simpl; [|exists e1; reflexivity].
    destruct (IH Hx Hf) as [e' He]. rewrite He. exists e'. reflexivity.
Qed.

Lemma map_result_map_dict (g : pydict -> result subquestion) ds :
  map_result (fun s => match s with PDict d => g d | _ => Err (TypeError "argument after ** must be a mapping") end)
    (map PDict ds) = map_result g ds.
Proof. induction ds as [|d r IH]; simpl; [reflexivity|]. rewrite IH. reflexivity. Qed.

(** When the cleaned reply does not parse as a JSON object,
    [generate_subquestions_from_query] falls back to the single sub-question
    [id=1] holding the user's query, with no dependencies. *)
Theorem subquestions_of_reply_fallback E sub_of_dict query text :
  (forall j, json_loads E (clean_json_str (text_or text "[]")) <> Some (PDict j)) ->
  subquestions_of_reply E sub_of_dict query text = [mk_subquestion 1 query []].
Proof.
  intros H. unfold subquestions_of_reply.
  destruct (json_loads E (clean_json_str (text_or text "[]"))) as [v|]; [|reflexivity].
  destruct v; try reflexivity. exfalso. eapply H. reflexivity.
Qed.

Lemma subquestions_of_reply_fallback_witness :
  subquestions_of_reply reply_env sample_sub_of_dict "Price of FPT" (Some "[]")
  = [mk_subquestion 1 "Price of FPT" []].
Proof.
  apply subquestions_of_reply_fallback. intros j H. vm_compute in H. discriminate H.
Defined.


(** When the reply is an object with a ["subquestions"] list: if every
    item is a dict accepted by [SubQuestion], the result is these
    sub-questions in order; if any item is not a dict or is rejected, the
    whole list is dropped for the single fallback sub-question. *)
Theorem subquestions_of_reply_items E sub_of_dict query text j items :
  json_loads E (clean_json_str (text_or text "[]")) = Some (PDict j) ->
  dict_mem j "subquestions" = true -> dict_get j "subquestions" = PList items ->
  (forall (ds : list pydict) (subs : list subquestion), items = map PDict ds -> map_result sub_of_dict ds = Ok subs ->
     subquestions_of_reply E sub_of_dict query text = subs) /\
  ((exists s, In s items /\ forall d, s = PDict d -> exists e, sub_of_dict d = Err e) ->
     subquestions_of_reply E sub_of_dict query text = [mk_subquestion 1 query []]).
Proof.
  intros Hj Hm Hg. unfold subquestions_of_reply. rewrite Hj, Hm, Hg. cbn [py_iter]. split.
  - intros ds subs -> Hr. rewrite (map_result_map_dict sub_of_dict). rewrite Hr. reflexivity.
  - intros [s [Hin Hs]].
    set (h := fun s : pyval => match s with
                               | PDict d => sub_of_dict d
                               | _ => Err (TypeError "argument after ** must be a mapping")
                               end).
    assert (Hx : exists e, h s = Err e).
    { destruct s; try (eexists; reflexivity). apply (Hs kvs). reflexivity. }
    destruct Hx as [e He]. destruct (map_result_err h items s e Hin He) as [e' ->]. reflexivity.
Qed.

Lemma subquestions_of_reply_items_witness :
  let items := [PDict [("id", PInt 1); ("question", PStr "Which ticker?")]] in
  (forall (ds : list pydict) (subs : list subquestion), items = map PDict ds ->
     map_result sample_sub_of_dict ds = Ok subs ->
     subquestions_of_reply reply_env sample_sub_of_dict "q" (Some subquestions_reply_text) = subs) /\
  ((exists s, In s items /\ forall d, s = PDict d -> exists e, sample_sub_of_dict d = Err e) ->
     subquestions_of_reply reply_env sample_sub_of_dict "q" (Some subquestions_reply_text)
     = [mk_subquestion 1 "q" []]).
Proof.
  intros items.
  apply (subquestions_of_reply_items reply_env sample_sub_of_dict "q" (Some subquestions_reply_text)
           [("subquestions", PList items)] items).
  - vm_compute. reflexivity.
  - vm_compute. reflexivity.
  - vm_compute. reflexivity.
Defined.


(** A reply object without ["subquestions"] gives no sub-questions at all
    (not the fallback), and [answer] on no sub-questions returns with no
    answered sub-questions and no tool call. *)
Theorem subquestions_of_reply_no_key E sub_of_dict query text j now st :
  json_loads E (clean_json_str (text_or text "[]")) = Some (PDict j) ->
  dict_mem j "subquestions" = false ->
  subquestions_of_reply E sub_of_dict query text = [] /\
  exists out st', answer E now query [] st = (Ok out, st') /\
    answered_subquestions out = [] /\ calls st' = calls st.
Proof.
  intros Hj Hm. split.
  - unfold subquestions_of_reply. rewrite Hj, Hm. reflexivity.
  - unfold answer. cbn. eexists; eexists. split; [reflexivity|]. split; reflexivity.
Qed.

Lemma subquestions_of_reply_no_key_witness :
  subquestions_of_reply reply_env sample_sub_of_dict "q" (Some "{}") = [] /\
  exists out st', answer reply_env "2025-01-01T00:00:00" "q" [] init_state = (Ok out, st') /\
    answered_subquestions out = [] /\ calls st' = calls init_state.
Proof.
  apply (subquestions_of_reply_no_key reply_env sample_sub_of_dict "q" (Some "{}") []).
  - vm_compute. reflexivity.
  - vm_compute. reflexivity.
Defined.



Lemma read_tool_index_settled {I} (builder : result I) st :
  slot st <> Unbuilt ->
  forall n, read_tool_index builder n st =
    (repeat (match slot st with Built ix => Some ix | _ => None end) n, st).
Proof.
  intros Hs. induction n as [|m IH]; simpl; [reflexivity|].
  unfold get_tool_index.
  destruct (slot st) as [| |ix] eqn:Hsl; [contradiction| |]; simpl; rewrite Hsl, IH; reflexivity.
Qed.


(** Reading [tool_index] [n] times builds the index at most once: never
    before the first read when loading lazily, once at construction
    otherwise. Every read gives the built index, or [None] when its build
    raised. *)
Theorem tool_index_built_once {I} (builder : result I) (lazy : bool) (n : nat) :
  fst (read_tool_index builder n (init_index builder lazy)) = repeat (index_value builder) n /\
  build_calls (snd (read_tool_index builder n (init_index builder lazy))) =
    (if lazy then Nat.min n 1 else 1)%nat.
Proof.
  unfold init_index. destruct lazy.
  - destruct n as [|m]; [split; reflexivity|].
    cbn [read_tool_index]. unfold get_tool_index at 1. cbn [slot lazy_load andb].
    destruct builder as [ix|e]; unfold build_tool_index; cbn -[read_tool_index];
      rewrite read_tool_index_settled by (cbn; discriminate); cbn; rewrite ?Nat.min_0_r; split; reflexivity.
  - destruct builder as [ix|e]; unfold build_tool_index; cbn -[read_tool_index];
      rewrite read_tool_index_settled by (cbn; discriminate); cbn; rewrite ?Nat.min_0_r; split; reflexivity.
Qed.


Lemma dict_set_fresh d k v : ~ In k (map fst d) -> dict_set d k v = d ++ [(k, v)].
Proof.
  induction d as [|[k' v'] r IH]; simpl; intros Hn; [reflexivity|].
  destruct (String.eqb_spec k' k) as [->|Hne]; [exfalso; apply Hn; left; reflexivity|].
  rewrite IH; [reflexivity|]. intros H; apply Hn; right; exact H.
Qed.

Lemma schema_step_skip func_name acc p :
  in_schema p = false -> schema_step func_name acc p = acc.
Proof. unfold in_schema, schema_step. destruct acc. destruct (sp_kind p); congruence. Qed.

Lemma schema_step_keep func_name (props : pydict) (req : list string) p :
  in_schema p = true ->
  schema_step func_name (props, req) p =
    (dict_set props (sp_name p) (snd (schema_entry func_name p)),
     if sp_has_default p then req else req ++ [sp_name p]).
Proof. unfold in_schema, schema_step. destruct (sp_kind p); intros H; try discriminate H; reflexivity. Qed.

Lemma schema_fold func_name params (props : pydict) (req : list string) :
  NoDup (map fst props ++ map sp_name (filter in_schema params)) ->
  fold_left (schema_step func_name) params (props, req) =
  (props ++ map (schema_entry func_name) (filter in_schema params),
   req ++ map sp_name (filter (fun p => negb (sp_has_default p)) (filter in_schema params))).
Proof.
  revert props req. induction params as [|p r IH]; intros props req Hnd.
  - cbn. rewrite !app_nil_r. reflexivity.
  - cbn [fold_left filter] in Hnd |- *.
    destruct (in_schema p) eqn:Hs.
    + rewrite (schema_step_keep func_name props req p Hs).
      cbn [map List.app] in Hnd.
      rewrite (dict_set_fresh props (sp_name p));
        [| intros Hin; apply NoDup_remove_2 in Hnd; apply Hnd, in_or_app; left; exact Hin].
      rewrite IH by (rewrite map_app, <- app_assoc; exact Hnd).
      cbn [filter]. destruct (sp_has_default p); cbn [negb map]; rewrite <- ?app_assoc; reflexivity.
    + rewrite (schema_step_skip func_name (props, req) p Hs). apply IH. exact Hnd.
Qed.

(** For a signature with distinct names, [_callable_to_schema] gives an
    object schema whose ["properties"] describe the parameters other than
    [*args] and [**kwargs], in order, and whose ["required"] lists those
    without a default, the key being absent when there is none. *)
Theorem callable_to_schema_spec func_name params :
  NoDup (map sp_name (filter in_schema params)) ->
  dict_get (callable_to_schema func_name params) "type" = PStr "object" /\
  dict_get (callable_to_schema func_name params) "properties" =
    PDict (map (schema_entry func_name) (filter in_schema params)) /\
  dict_get (callable_to_schema func_name params) "required" =
    match filter (fun p => negb (sp_has_default p)) (filter in_schema params) with
    | [] => PNone
    | req => PList (map PStr (map sp_name req))
    end.
Proof.
  intros Hnd. unfold callable_to_schema. rewrite schema_fold by exact Hnd. cbn [app].
  destruct (filter (fun p => negb (sp_has_default p)) (filter in_schema params)) as [|q qs];
    [repeat split; reflexivity|].
  split; [reflexivity|]. split; [reflexivity|]. apply dict_get_set_same.
Qed.

Lemma callable_to_schema_spec_witness :
  let params := [mk_sig_param "ticker" POSITIONAL_OR_KEYWORD AnnStr false;
                 mk_sig_param "period" POSITIONAL_OR_KEYWORD AnnStr true;
                 mk_sig_param "kwargs" VAR_KEYWORD AnnEmpty false] in
  dict_get (callable_to_schema "get_stock_price" params) "type" = PStr "object" /\
  dict_get (callable_to_schema "get_stock_price" params) "properties" =
    PDict (map (schema_entry "get_stock_price") (filter in_schema params)) /\
  dict_get (callable_to_schema "get_stock_price" params) "required" =
    match filter (fun p => negb (sp_has_default p)) (filter in_schema params) with
    | [] => PNone
    | req => PList (map PStr (map sp_name req))
    end.
Proof.
  intros params. apply callable_to_schema_spec. vm_compute.
  constructor; [intros [H|[]]; discriminate H|constructor; [intros []|constructor]].
Defined.


(** The registry *)
Lemma sdict_get_set {A} (d : list (string * A)) k v k' :
  sdict_get (sdict_set d k v) k' = if String.eqb k' k then Some v else sdict_get d k'.
Proof.
  induction d as [|[k1 v1] r IH]; simpl.
  - destruct (String.eqb_spec k k'), (String.eqb_spec k' k); subst; congruence.
  - destruct (String.eqb_spec k1 k) as [->|Hne]; simpl.
    + destruct (String.eqb_spec k k'), (String.eqb_spec k' k); subst; congruence.
    + rewrite IH. destruct (String.eqb_spec k1 k') as [->|Hne']; [|reflexivity].
      destruct (String.eqb_spec k' k); [contradiction|reflexivity].
Qed.

Lemma sdict_set_keys {A} (d : list (string * A)) k v :
  map fst (sdict_set d k v) = if mem_str k (map fst d) then map fst d else map fst d ++ [k].
Proof.
  unfold mem_str. induction d as [|[k1 v1] r IH]; simpl; [reflexivity|].
  destruct (String.eqb_spec k1 k) as [->|Hne]; simpl.
  - rewrite String.eqb_refl. reflexivity.
  - destruct (String.eqb_spec k k1) as [->|_]; [contradiction|]. simpl.
    rewrite IH. destruct (existsb (String.eqb k) (map fst r)); reflexivity.
Qed.

(** After [ToolRegistry.register], [get] on the name gives the new
    [ToolMeta], with the schema built from the signature when none was
    given, and [get] on any other name is unchanged; a new name is listed
    last, a name already registered keeps its place. *)
Theorem register_spec reg name description func sig parameters_schema :
  (forall k, registry_lookup (register reg name description func sig parameters_schema) k =
     if String.eqb k name
     then Some (mk_reg_meta name description func
                  match parameters_schema with
                  | Some s => s
                  | None => callable_to_schema (fn_name func) sig
                  end)
     else registry_lookup reg k) /\
  map fst (list_tools (register reg name description func sig parameters_schema)) =
    if mem_str name (map fst (list_tools reg)) then map fst (list_tools reg)
    else map fst (list_tools reg) ++ [name].
Proof.
  split.
  - intros k. unfold registry_lookup, register. apply sdict_get_set.
  - unfold list_tools, register. apply sdict_set_keys.
Qed.


Lemma sdict_set_In {A} (d : list (string * A)) k v k' v' :
  In (k', v') (sdict_set d k v) -> (k' = k /\ v' = v) \/ In (k', v') d.
Proof.
  induction d as [|[k1 v1] r IH]; simpl.
  - intros [H|[]]. inversion H; subst. left; split; reflexivity.
  - destruct (String.eqb_spec k1 k) as [->|Hne]; simpl.
    + intros [H|H]; [inversion H; subst; left; split; reflexivity|right; right; exact H].
    + intros [H|H]; [right; left; exact H|]. destruct (IH H) as [?|?]; [left|right; right]; assumption.
Qed.

Lemma register_well_keyed reg name description func sig ps :
  well_keyed reg -> well_keyed (register reg name description func sig ps).
Proof.
  intros [Hnd Hn]. unfold register. split.
  - rewrite sdict_set_keys. destruct (mem_str name (map fst reg)) eqn:Hm; [exact Hnd|].
    apply NoDup_app; [exact Hnd| constructor; [intros []|constructor] |].
    intros x Hx [<-|[]]. rewrite (proj2 (mem_str_In _ _) Hx) in Hm. discriminate.
  - intros k m Hin. destruct (sdict_set_In _ _ _ _ _ Hin) as [[-> ->]|H]; [reflexivity|].
    exact (Hn k m H).
Qed.

Lemma register_all_well_keyed reg rs :
  well_keyed reg -> well_keyed (register_all reg rs).
Proof.
  unfold register_all. revert reg. induction rs as [|x r IH]; intros reg H; simpl; [exact H|].
  apply IH, register_well_keyed, H.
Qed.

Lemma register_all_keys reg rs k :
  In k (map fst (register_all reg rs)) <-> In k (map fst reg) \/ In k (map rg_name rs).
Proof.
  unfold register_all. revert reg. induction rs as [|x r IH]; intros reg; simpl.
  - tauto.
  - rewrite IH. unfold register. rewrite sdict_set_keys.
    destruct (mem_str (rg_name x) (map fst reg)) eqn:Hm.
    + apply mem_str_In in Hm. split; [tauto|].
      intros [H|[<-|H]]; [left; exact H|left; exact Hm|right; exact H].
    + rewrite in_app_iff. simpl. tauto.
Qed.

Lemma sdict_get_In {A} (d : list (string * A)) k v :
  NoDup (map fst d) -> In (k, v) d -> sdict_get d k = Some v.
Proof.
  induction d as [|[k1 v1] r IH]; simpl; intros Hnd Hin; [destruct Hin|].
  inversion Hnd as [|? ? Hn Hnd']; subst.
  destruct Hin as [Heq|Hin].
  - inversion Heq; subst. rewrite String.eqb_refl. reflexivity.
  - destruct (String.eqb_spec k1 k) as [->|_]; [|apply IH; assumption].
    exfalso. apply Hn. apply in_map_iff. exists (k, v). split; [reflexivity|exact Hin].
Qed.

(** [build_tool_vector_index_from_registry] on a registry filled by
    [register] calls raises [ValueError] when there were none; otherwise it
    indexes one document per distinct registered name, and each document's
    [tool_name] gets, in the registry, the [ToolMeta] it was built from. *)
Theorem tool_vector_index_documents {I} (from_documents : list tool_doc -> result I) rs :
  (rs = [] -> build_tool_vector_index_from_registry from_documents (register_all [] rs) =
               Err (ValueError "No tools registered in the registry.")) /\
  (rs <> [] -> exists docs,
     build_tool_vector_index_from_registry from_documents (register_all [] rs) = from_documents docs /\
     NoDup (map md_tool_name docs) /\
     (forall k, In k (map md_tool_name docs) <-> In k (map rg_name rs)) /\
     (forall d, In d docs -> exists m,
        registry_lookup (register_all [] rs) (md_tool_name d) = Some m /\ tool_doc_of m = d)).
Proof.
  split; [intros ->; reflexivity|]. intros Hne.
  assert (Hwk : well_keyed (register_all [] rs)).
  { apply register_all_well_keyed. split; [constructor|intros k m []]. }
  destruct Hwk as [Hnd Hnm].
  assert (Hnames : map md_tool_name (map (fun nm => tool_doc_of (snd nm)) (register_all [] rs)) =
                   map fst (register_all [] rs)).
  { rewrite map_map. apply map_ext_in. intros [k m] Hin. simpl. apply Hnm, Hin. }
  exists (map (fun nm => tool_doc_of (snd nm)) (register_all [] rs)). split; [|split; [|split]].
  - unfold build_tool_vector_index_from_registry, list_tools.
    destruct (register_all [] rs) as [|e reg'] eqn:Hreg.
    + exfalso. destruct rs as [|x r]; [contradiction|].
      assert (Hk : In (rg_name x) (map fst (register_all [] (x :: r)))).
      { apply register_all_keys. right. left. reflexivity. }
      rewrite Hreg in Hk. destruct Hk.
    + reflexivity.
  - rewrite Hnames. exact Hnd.
  - intros k. rewrite Hnames, register_all_keys. simpl. tauto.
  - intros d Hd. apply in_map_iff in Hd. destruct Hd as [[k m] [<- Hin]].
    exists m. split; [|reflexivity]. simpl.
    unfold registry_lookup. unfold tool_doc_of; simpl. rewrite (Hnm k m Hin).
    apply sdict_get_In; assumption.
Qed.

Lemma str_length_app (a b : string) : String.length (a ++ b) = (String.length a + String.length b)%nat.
Proof. induction a as [|c r IH]; simpl; [reflexivity|rewrite IH; reflexivity]. Qed.

Lemma lstrip_suffix s : exists p, s = (p ++ lstrip s)%string.
Proof.
  induction s as [|c r IH]; simpl; [exists EmptyString; reflexivity|].
  destruct (is_space c).
  - destruct IH as [p Hp]. exists (String c p). simpl. rewrite <- Hp. reflexivity.
  - exists EmptyString. reflexivity.
Qed.

Lemma lstrip_same_length s : String.length (lstrip s) = String.length s -> lstrip s = s.
Proof.
  destruct (lstrip_suffix s) as [p Hp]. intros Hl.
  rewrite Hp in Hl at 2. rewrite str_length_app in Hl.
  destruct p; [exact (eq_sym Hp)|simpl in Hl; lia].
Qed.

Lemma lstrip_length s : (String.length (lstrip s) <= String.length s)%nat.
Proof.
  destruct (lstrip_suffix s) as [p Hp]. rewrite Hp at 2. rewrite str_length_app. lia.
Qed.

Lemma list_ascii_app (a b : string) :
  list_ascii_of_string (a ++ b) = list_ascii_of_string a ++ list_ascii_of_string b.
Proof. induction a as [|c r IH]; simpl; [reflexivity|rewrite IH; reflexivity]. Qed.

Lemma string_of_list_app (a b : list ascii) :
  string_of_list_ascii (a ++ b) = (string_of_list_ascii a ++ string_of_list_ascii b)%string.
Proof. induction a as [|c r IH]; simpl; [reflexivity|rewrite IH; reflexivity]. Qed.

Lemma string_of_list_length (l : list ascii) : String.length (string_of_list_ascii l) = List.length l.
Proof. induction l as [|c r IH]; simpl; [reflexivity|rewrite IH; reflexivity]. Qed.

Lemma list_ascii_length s : List.length (list_ascii_of_string s) = String.length s.
Proof. induction s as [|c r IH]; simpl; [reflexivity|rewrite IH; reflexivity]. Qed.

Lemma rev_string_app (a b : string) : rev_string (a ++ b) = (rev_string b ++ rev_string a)%string.
Proof. unfold rev_string. rewrite list_ascii_app, rev_app_distr, string_of_list_app. reflexivity. Qed.

Lemma rev_string_involutive s : rev_string (rev_string s) = s.
Proof.
  unfold rev_string. rewrite list_ascii_of_string_of_list_ascii, rev_involutive.
  apply string_of_list_ascii_of_string.
Qed.

Lemma rev_string_length s : String.length (rev_string s) = String.length s.
Proof. unfold rev_string. rewrite string_of_list_length, length_rev. apply list_ascii_length. Qed.

Lemma rev_string_str1 c : rev_string (str1 c) = str1 c.
Proof. reflexivity. Qed.

(** A stripped string: [py_strip] leaves it as it is. *)
Lemma py_strip_fixed s :
  py_strip s = s -> lstrip s = s /\ lstrip (rev_string s) = rev_string s.
Proof.
  unfold py_strip. intros H.
  pose proof (lstrip_length s) as L1.
  pose proof (lstrip_length (rev_string (lstrip s))) as L2.
  assert (Hlen : String.length (py_strip s) = String.length s) by (unfold py_strip; rewrite H; reflexivity).
  unfold py_strip in Hlen. rewrite rev_string_length in Hlen.
  rewrite rev_string_length in L2.
  assert (Ha : lstrip s = s) by (apply lstrip_same_length; lia).
  split; [exact Ha|]. rewrite Ha in Hlen. apply lstrip_same_length. rewrite rev_string_length. exact Hlen.
Qed.

Lemma lstrip_app_nonspace c r t : is_space c = false -> lstrip (String c r ++ t) = (String c r ++ t)%string.
Proof. intros H. simpl. rewrite H. reflexivity. Qed.

Lemma py_strip_nonspace_ends c r d :
  is_space c = false -> is_space d = false ->
  py_strip (String c (r ++ str1 d)) = String c (r ++ str1 d).
Proof.
  intros Hc Hd. unfold py_strip.
  change (lstrip (String c (r ++ str1 d))) with (lstrip (String c r ++ str1 d)%string).
  rewrite (lstrip_app_nonspace c r _ Hc).
  rewrite rev_string_app. rewrite rev_string_str1. unfold str1 at 1.
  change (lstrip (String d EmptyString ++ rev_string (String c r))%string)
    with (lstrip (String d (rev_string (String c r)))).
  simpl lstrip at 1. rewrite Hd. change (String d (rev_string (String c r))) with (str1 d ++ rev_string (String c r))%string.
  rewrite <- rev_string_str1, <- rev_string_app, rev_string_involutive. reflexivity.
Qed.

Lemma substring_app_r (a b : string) : substring (String.length a) (String.length b) (a ++ b) = b.
Proof.
  induction a as [|c r IH]; simpl.
  - induction b as [|c r IH]; simpl; [reflexivity|rewrite IH; reflexivity].
  - exact IH.
Qed.

Lemma substring_app_l (a b : string) : substring 0 (String.length a) (a ++ b) = a.
Proof. induction a as [|c r IH]; simpl; [destruct b; reflexivity|rewrite IH; reflexivity]. Qed.

Lemma py_strip_snoc_newline body :
  py_strip body = body -> py_strip (body ++ str1 newline) = body.
Proof.
  intros H. destruct (py_strip_fixed body H) as [H1 H2].
  unfold py_strip.
  destruct body as [|c r].
  - reflexivity.
  - assert (Hc : is_space c = false) by (simpl in H1; destruct (is_space c); [|reflexivity];
      exfalso; pose proof (lstrip_length r) as Lr; rewrite H1 in Lr; simpl in Lr; lia).
    rewrite (lstrip_app_nonspace c r _ Hc). rewrite rev_string_app, rev_string_str1.
    cbn [str1 append lstrip]. replace (is_space newline) with true by reflexivity.
    rewrite H2. apply rev_string_involutive.
Qed.

Lemma strip_fence_close_snoc (s : string) :
  strip_fence_close (s ++ "```") = s.
Proof.
  unfold strip_fence_close. rewrite str_length_app. cbn [String.length].
  replace (3 <=? String.length s + 3)%nat with true by (symmetry; apply Nat.leb_le; lia).
  replace (String.length s + 3 - 3)%nat with (String.length s) by lia.
  pose proof (substring_app_r s "```") as Hsub. cbn [String.length] in Hsub. rewrite Hsub.
  cbn [andb String.eqb Ascii.eqb Bool.eqb]. apply substring_app_l.
Qed.

(** [_clean_json_str] takes a body with no surrounding white space out of
    a ```json fence. *)
Theorem clean_json_str_fence body :
  py_strip body = body ->
  clean_json_str ("```json" ++ str1 newline ++ body ++ str1 newline ++ "```") = body.
Proof.
  intros Hb. unfold clean_json_str.
  set (T := ("json" ++ str1 newline ++ body ++ str1 newline ++ "```")%string).
  assert (HW : ("```json" ++ str1 newline ++ body ++ str1 newline ++ "```")%string = ("```" ++ T)%string)
    by reflexivity.
  assert (Hs : py_strip ("```" ++ T) = ("```" ++ T)%string).
  { assert (E : ("```" ++ T)%string =
                String "`" (("``json" ++ str1 newline ++ body ++ str1 newline ++ "``") ++ str1 "`")).
    { unfold T. simpl. rewrite !str_app_assoc. reflexivity. }
    rewrite E. apply py_strip_nonspace_ends; reflexivity. }
  rewrite HW, Hs.
  replace (String.prefix "```" ("```" ++ T)) with true by reflexivity.
  unfold strip_fence_open.
  replace (String.prefix "```" ("```" ++ T)) with true by reflexivity.
  rewrite str_length_app. cbn [String.length].
  replace (3 + String.length T - 3)%nat with (String.length T) by lia.
  pose proof (substring_app_r "```" T) as Hsub. cbn [String.length] in Hsub. rewrite Hsub.
  assert (Hspan : span is_alnum T = ("json", String newline (body ++ str1 newline ++ "```"))%string)
    by reflexivity.
  rewrite Hspan. cbn [snd].
  replace (Ascii.eqb newline newline) with true by reflexivity.
  rewrite <- str_app_assoc. rewrite strip_fence_close_snoc.
  apply py_strip_snoc_newline, Hb.
Qed.

Lemma clean_json_str_fence_witness :
  clean_json_str ("```json" ++ str1 newline ++ "{}" ++ str1 newline ++ "```") = "{}".
Proof. apply clean_json_str_fence. vm_compute. reflexivity. Defined.

